(** * Tic Tac Toe (src/tic_tac_toe_frontend/src/App.js)

    A shallow embedding of the rules engine ([calculateWinner]), the
    move search ([getBestAIMove]) and the session handlers of the [App]
    component ([handleSquareClick], [jumpTo], [handleRestart],
    [switchMode]), the AI effect, and what the components [Board],
    [HistoryPanel] and [GamePanel] derive from the session, followed by
    the properties of the design document and further properties of the
    code.

    Boards are JavaScript arrays: [list cell], read with stdpp's lookup
    and written with [array_set], which extends the array the way an
    assignment past the end does.  Array indices are natural numbers;
    negative and fractional property keys are outside the model. *)

From Stdlib Require Import ZArith Lia.
From stdpp Require Import base decidable option list numbers relations sorting strings.

Open Scope Z_scope.

(** ** Data model *)

(** [PLAYER_X = 'X'] and [PLAYER_O = 'O']. *)
Inductive mark : Set := PLAYER_X | PLAYER_O.

#[global] Instance mark_eq_dec : EqDecision mark.
Proof. solve_decision. Defined.

(** The other player. *)
Definition opponent (p : mark) : mark :=
  match p with PLAYER_X => PLAYER_O | PLAYER_O => PLAYER_X end.

(** What an array slot of a board can hold: [null] (from [fill(null)]),
    a mark, [undefined], or nothing at all (a hole of a sparse array,
    which [forEach] and [every] skip and the spread syntax reads as
    [undefined]). *)
Inductive cell : Set :=
| Hole
| Undef
| Null
| Mk (m : mark).

#[global] Instance cell_eq_dec : EqDecision cell.
Proof. solve_decision. Defined.

Abbreviation Board := (list cell).

(** [Array(9).fill(null)] *)
Definition getEmptyBoard : Board := replicate 9%nat Null.

(** [board[i]]: a hole and an index past the end both read [undefined]. *)
Definition get (bd : Board) (i : nat) : cell :=
  match bd !! i with
  | Some Hole | None => Undef
  | Some c => c
  end.

(** [[...board]]: same length, holes become [undefined]. *)
Definition spread (bd : Board) : Board :=
  map (fun c => match c with Hole => Undef | _ => c end) bd.

(** [board[i] = v]: in range the slot is replaced; past the end the array
    grows to length [i + 1], the slots in between being holes.  (This is
    the behaviour for array indices, those below [2^32 - 1]; from there
    on the assignment adds a property and leaves the length alone, which
    a list does not model.) *)
Definition array_set (bd : Board) (i : nat) (v : cell) : Board :=
  if (i <? length bd)%nat then <[i:=v]> bd
  else bd ++ replicate (i - length bd)%nat Hole ++ [v].

(** Truthiness of a slot value: only the strings ['X'] and ['O']. *)
Definition truthy (c : cell) : bool :=
  match c with Mk _ => true | _ => false end.

(** [c === d] on values read from a board. *)
Definition strict_eq (c d : cell) : bool :=
  match c, d with
  | Mk m, Mk n => bool_decide (m = n)
  | Null, Null => true
  | (Undef | Hole), (Undef | Hole) => true
  | _, _ => false
  end.

(** [c == null] (true of [null] and [undefined]). *)
Definition loose_null (c : cell) : bool :=
  match c with Null | Undef => true | _ => false end.

(** ** Rules engine *)

(** The [winner] property of [calculateWinner]'s result: a mark or the
    string ['Draw']. *)
Inductive winner_t : Set :=
| WMark (m : mark)
| WDraw.

#[global] Instance winner_eq_dec : EqDecision winner_t.
Proof. solve_decision. Defined.

Definition Line : Set := (nat * nat * nat)%type.

Record winnerObj : Set := mkWinnerObj {
  winner : winner_t;
  line : option Line
}.

Definition lines : list Line :=
  [ (0, 1, 2); (3, 4, 5); (6, 7, 8);   (* rows *)
    (0, 3, 6); (1, 4, 7); (2, 5, 8);   (* cols *)
    (0, 4, 8); (2, 4, 6) ]%nat.        (* diags *)

(** The [for (let line of lines)] loop: the first line that passes the
    test returns. *)
Fixpoint first_winning_line (bd : Board) (ls : list Line) : option winnerObj :=
  match ls with
  | [] => None
  | (a, b, c) :: rest =>
      if truthy (get bd a)
         && strict_eq (get bd a) (get bd b)
         && strict_eq (get bd a) (get bd c)
      then match get bd a with
           | Mk m => Some {| winner := WMark m; line := Some (a, b, c) |}
           | _ => first_winning_line bd rest
           end
      else first_winning_line bd rest
  end.

(** [board.every(sq => sq != null)]: holes are not visited. *)
Definition every_filled (bd : Board) : bool :=
  forallb (fun sq => match sq with
                     | Hole => true
                     | _ => negb (loose_null sq)
                     end) bd.

(** [null] is [None]. *)
Definition calculateWinner (bd : Board) : option winnerObj :=
  match first_winning_line bd lines with
  | Some r => Some r
  | None =>
      if every_filled bd
      then Some {| winner := WDraw; line := None |}
      else None
  end.

(** ** Move search *)

(** The [idx] property of a search result: absent ([{ score }]),
    [null], or a cell index. *)
Inductive index : Set :=
| NoIdx
| NullIdx
| Idx (i : nat).

#[global] Instance index_eq_dec : EqDecision index.
Proof. solve_decision. Defined.

Record result : Set := mkResult {
  idx : index;
  score : Z
}.

(** The game-over test at the head of [getBestAIMove]; [None] when
    control falls through to the search. *)
Definition terminal_score (res : option winnerObj) (aiPlayer humanPlayer : mark)
  : option Z :=
  match res with
  | Some r =>
      if bool_decide (winner r = WMark aiPlayer) then Some 1
      else if bool_decide (winner r = WMark humanPlayer) then Some (-1)
      else if bool_decide (winner r = WDraw) then Some 0
      else None
  | None => None
  end.

(** The [board.forEach] callback run over the slots from index [i] on;
    [search] is the recursive call.  [moves.push] keeps index order. *)
Fixpoint forEach_moves (search : Board -> option result) (bd : Board)
    (aiPlayer : mark) (i : nat) (cells : list cell) : option (list result) :=
  match cells with
  | [] => Some []
  | c :: rest =>
      match c with
      | Hole => forEach_moves search bd aiPlayer (S i) rest
      | _ =>
          if loose_null c then
            match search (array_set (spread bd) i (Mk aiPlayer)) with
            | Some r =>
                match forEach_moves search bd aiPlayer (S i) rest with
                | Some ms => Some ({| idx := Idx i; score := - score r |} :: ms)
                | None => None
                end
            | None => None
            end
          else forEach_moves search bd aiPlayer (S i) rest
      end
  end.

(** [moves.reduce((acc, move) => acc == null || move.score > acc.score
    ? move : acc, null)] *)
Definition reduce_best (moves : list result) : option result :=
  fold_left
    (fun acc move =>
       match acc with
       | None => Some move
       | Some a => if score move >? score a then Some move else Some a
       end)
    moves None.

(** [getBestAIMove] with a bound on the recursion depth; [None] only
    when the bound is exhausted. *)
Fixpoint getBestAIMove_depth (depth : nat) (bd : Board)
    (aiPlayer humanPlayer : mark) : option result :=
  match terminal_score (calculateWinner bd) aiPlayer humanPlayer with
  | Some s => Some {| idx := NoIdx; score := s |}
  | None =>
      match depth with
      | 0%nat => None
      | S depth' =>
          match forEach_moves
                  (fun newBoard =>
                     getBestAIMove_depth depth' newBoard humanPlayer aiPlayer)
                  bd aiPlayer 0 bd with
          | Some moves =>
              match reduce_best moves with
              | Some best => Some best
              | None => Some {| idx := NullIdx; score := 0 |}
              end
          | None => None
          end
      end
  end.

(** Slots that do not hold a mark; every recursive call fills one. *)
Definition unmarked (bd : Board) : nat :=
  length (filter (fun c => truthy c = false) bd).

Definition getBestAIMove (bd : Board) (aiPlayer humanPlayer : mark)
  : option result :=
  getBestAIMove_depth (S (unmarked bd)) bd aiPlayer humanPlayer.

(** ** Game session *)

Inductive mode_t : Set := MODE_SINGLE_PLAYER | MODE_TWO_PLAYER.

#[global] Instance mode_eq_dec : EqDecision mode_t.
Proof. solve_decision. Defined.

(** A history entry [{ board, xIsNext }]. *)
Record entry : Set := mkEntry {
  board : Board;
  xIsNext : bool
}.

(** The four [useState] cells of [App] that the game uses (the theme
    is presentation state and no handler below reads or writes it). *)
Record state : Set := mkState {
  mode : mode_t;
  history : list entry;
  stepNumber : nat;
  aiThinking : bool
}.

(** The [useState] initial values. *)
Definition initialState : state :=
  {| mode := MODE_SINGLE_PLAYER;
     history := [ {| board := getEmptyBoard; xIsNext := true |} ];
     stepNumber := 0;
     aiThinking := false |}.

(** [history[stepNumber]]; when it is [undefined] the render throws on
    [current.board] and no handler exists. *)
Definition current (s : state) : option entry :=
  history s !! stepNumber s.

(** [winnerObj ? winnerObj.winner : null] *)
Definition winner_of (e : entry) : option winner_t :=
  match calculateWinner (board e) with
  | Some w => Some (winner w)
  | None => None
  end.

(** The handler closes over [current], [winner], [history],
    [stepNumber], [mode] and [aiThinking] of the render it belongs to;
    the two setters are applied as one state update. *)
Definition handleSquareClick (s : state) (i : nat) (isAI : bool)
  : option state :=
  match current s with
  | None => None
  | Some cur =>
      if bool_decide (is_Some (winner_of cur))
         || truthy (get (board cur) i)
         || (bool_decide (mode s = MODE_SINGLE_PLAYER)
             && aiThinking s && negb isAI)
      then Some s
      else if negb isAI && bool_decide (mode s = MODE_SINGLE_PLAYER)
              && negb (xIsNext cur)
      then Some s
      else
        let bd :=
          array_set (spread (board cur)) i
            (Mk (if xIsNext cur then PLAYER_X else PLAYER_O)) in
        let nextHistory :=
          take (S (stepNumber s)) (history s)
            ++ [ {| board := bd; xIsNext := negb (xIsNext cur) |} ] in
        Some {| mode := mode s;
                history := nextHistory;
                stepNumber := length nextHistory - 1;
                aiThinking := aiThinking s |}
  end.

Definition jumpTo (s : state) (step : nat) : state :=
  {| mode := mode s;
     history := history s;
     stepNumber := step;
     aiThinking := aiThinking s |}.

Definition handleRestart (s : state) : state :=
  {| mode := mode s;
     history := [ {| board := getEmptyBoard; xIsNext := true |} ];
     stepNumber := 0;
     aiThinking := false |}.

(** [setMode(newMode); handleRestart();] *)
Definition switchMode (s : state) (newMode : mode_t) : state :=
  handleRestart
    {| mode := newMode;
       history := history s;
       stepNumber := stepNumber s;
       aiThinking := aiThinking s |}.

(** The condition of the AI effect: single player, no winner, O to move. *)
Definition aiTurn (s : state) (cur : entry) : bool :=
  bool_decide (mode s = MODE_SINGLE_PLAYER)
  && negb (bool_decide (is_Some (winner_of cur)))
  && negb (xIsNext cur).

(** The effect body up to the timer: [setAIThinking(true)]. *)
Definition aiEffect (s : state) : option state :=
  match current s with
  | None => None
  | Some cur =>
      if aiTurn s cur
      then Some {| mode := mode s; history := history s;
                   stepNumber := stepNumber s; aiThinking := true |}
      else Some s
  end.

(** The timer callback: the search, the AI-tagged click when
    [best.idx != null && !current.board[best.idx]], then
    [setAIThinking(false)]. *)
Definition aiTimer (s : state) : option state :=
  match current s with
  | None => None
  | Some cur =>
      match getBestAIMove (board cur) PLAYER_O PLAYER_X with
      | None => None
      | Some best =>
          let clicked :=
            match idx best with
            | Idx i =>
                if negb (truthy (get (board cur) i))
                then handleSquareClick s i true
                else Some s
            | _ => Some s
            end in
          match clicked with
          | None => None
          | Some s1 =>
              Some {| mode := mode s1; history := history s1;
                      stepNumber := stepNumber s1; aiThinking := false |}
          end
      end
  end.

(** One transition of the session: a handler call, or one of the two
    halves of the AI effect (the timer exists only while the effect's
    condition holds, since the effect is re-run, and the timer cleared,
    whenever [current], [winner] or [mode] change). *)
Inductive step : state -> state -> Prop :=
| step_click s i isAI s' :
    handleSquareClick s i isAI = Some s' -> step s s'
| step_jump s n :
    (n < length (history s))%nat -> step s (jumpTo s n)
| step_restart s :
    step s (handleRestart s)
| step_switch s m :
    step s (switchMode s m)
| step_effect s s' :
    aiEffect s = Some s' -> step s s'
| step_timer s cur s' :
    current s = Some cur -> aiTurn s cur = true ->
    aiTimer s = Some s' -> step s s'.

Definition reachable (s : state) : Prop := rtc step initialState s.

(** Playing [getBestAIMove] for whichever side is to move, at most [n]
    plies, starting with [p]; returns the outcome reached, [None] when
    the game is not over after [n] plies or no move is returned. *)
Fixpoint selfPlay (n : nat) (bd : Board) (p q : mark) : option winnerObj :=
  match calculateWinner bd with
  | Some r => Some r
  | None =>
      match n with
      | 0%nat => None
      | S n' =>
          match getBestAIMove bd p q with
          | Some {| idx := Idx i |} =>
              selfPlay n' (array_set (spread bd) i (Mk p)) q p
          | _ => None
          end
      end
  end.

(** ** Vocabulary of the properties *)

(** The three cells of a line all hold the mark [m]. *)
Definition holds_line (bd : Board) (l : Line) (m : mark) : Prop :=
  let '(a, b, c) := l in
  get bd a = Mk m /\ get bd b = Mk m /\ get bd c = Mk m.

Definition completed (bd : Board) (l : Line) : Prop :=
  exists m, holds_line bd l m.

(** A board of the data model: nine slots, none of them a hole. *)
Definition nine_cells (bd : Board) : Prop :=
  length bd = 9%nat /\ Forall (fun c => c <> Hole) bd.

(** A board of legal play: nine slots, each [null] or a mark. *)
Definition legal_board (bd : Board) : Prop :=
  length bd = 9%nat /\ Forall (fun c => c = Null \/ exists m, c = Mk m) bd.

(** The slots [forEach] offers as moves: present and [== null]. *)
Definition candidate (bd : Board) (i : nat) : Prop :=
  exists c, bd !! i = Some c /\ loose_null c = true.

(** [newBoard] of the search for the move at [i]. *)
Definition place (bd : Board) (i : nat) (p : mark) : Board :=
  array_set (spread bd) i (Mk p).

(** Indices of the candidate slots of [cells], numbered from [i]. *)
Fixpoint candidates_from (i : nat) (cells : list cell) : list nat :=
  match cells with
  | [] => []
  | c :: rest =>
      if loose_null c then i :: candidates_from (S i) rest
      else candidates_from (S i) rest
  end.

Definition candidates (bd : Board) : list nat := candidates_from 0 bd.

(** The score of the search, [0] if it returned nothing. *)
Definition search_score (bd : Board) (p q : mark) : Z :=
  match getBestAIMove bd p q with
  | Some r => score r
  | None => 0
  end.

(** The [moves] array of one call. *)
Definition moves_of (bd : Board) (p q : mark) : list result :=
  map (fun j => {| idx := Idx j; score := - search_score (place bd j p) q p |})
      (candidates bd).

(** What one call computes from the results of its recursive calls. *)
Definition search_body (bd : Board) (p q : mark) : result :=
  match terminal_score (calculateWinner bd) p q with
  | Some s => {| idx := NoIdx; score := s |}
  | None =>
      match reduce_best (moves_of bd p q) with
      | Some best => best
      | None => {| idx := NullIdx; score := 0 |}
      end
  end.

(** Playing [p] at the empty cell [i] ends the game with [p] the winner. *)
Definition immediate_win (bd : Board) (p : mark) (i : nat) : Prop :=
  candidate bd i
  /\ exists r, calculateWinner (place bd i p) = Some r /\ winner r = WMark p.

(** O to move; cell 8 completes the bottom row, cell 4 blocks the
    middle row and opens three lines at once. *)
Definition fork_board : Board :=
  [ Mk PLAYER_X; Null;        Null;
    Mk PLAYER_X; Null;        Mk PLAYER_X;
    Mk PLAYER_O; Mk PLAYER_O; Null ].

(** A cell of a legal board that holds no mark. *)
Definition empty_cell (bd : Board) (i : nat) : Prop := bd !! i = Some Null.

(** The board after [t] marks cell [i]. *)
Definition play (bd : Board) (i : nat) (t : mark) : Board := <[i:=Mk t]> bd.

(** [forces good p t bd]: with [t] to move on [bd], player [p] has a
    strategy that ends the game, whatever the other player does, in an
    outcome satisfying [good].  On [p]'s turn one move must do; on the
    other player's turn every move must. *)
Inductive forces (good : winner_t -> Prop) (p : mark) : mark -> Board -> Prop :=
| forces_end t bd r :
    calculateWinner bd = Some r -> good (winner r) ->
    forces good p t bd
| forces_own t bd i :
    calculateWinner bd = None -> t = p -> empty_cell bd i ->
    forces good p (opponent t) (play bd i t) ->
    forces good p t bd
| forces_reply t bd :
    calculateWinner bd = None -> t <> p ->
    (exists i, empty_cell bd i) ->
    (forall i, empty_cell bd i -> forces good p (opponent t) (play bd i t)) ->
    forces good p t bd.

(** [p] can force a win. *)
Definition forces_win (p : mark) : mark -> Board -> Prop :=
  forces (fun w => w = WMark p) p.

(** [p] can force a win or a draw. *)
Definition forces_draw (p : mark) : mark -> Board -> Prop :=
  forces (fun w => w = WMark p \/ w = WDraw) p.

(** The mark of the player to move at an entry. *)
Definition mover (cur : entry) : mark :=
  if xIsNext cur then PLAYER_X else PLAYER_O.

(** The entry a click on cell [i] appends. *)
Definition next_entry (cur : entry) (i : nat) : entry :=
  {| board := array_set (spread (board cur)) i (Mk (mover cur));
     xIsNext := negb (xIsNext cur) |}.

(** The click passes both guards of [handleSquareClick]. *)
Definition accepts (s : state) (cur : entry) (i : nat) (isAI : bool) : Prop :=
  calculateWinner (board cur) = None
  /\ truthy (get (board cur) i) = false
  /\ (isAI = true \/ mode s = MODE_TWO_PLAYER
      \/ (xIsNext cur = true /\ aiThinking s = false)).

(** The spec's [newSession(mode)]: a single empty-board entry with X to
    move, [currentStep = 0], no AI move pending. *)
Definition newSession (m : mode_t) : state :=
  {| mode := m;
     history := [ {| board := replicate 9%nat Null; xIsNext := true |} ];
     stepNumber := 0;
     aiThinking := false |}.

(** A two-player game three moves in (X at 0, O at 1, X at 2). *)
Definition three_moves : state :=
  let b0 := getEmptyBoard in
  let b1 := <[0%nat:=Mk PLAYER_X]> b0 in
  let b2 := <[1%nat:=Mk PLAYER_O]> b1 in
  let b3 := <[2%nat:=Mk PLAYER_X]> b2 in
  {| mode := MODE_TWO_PLAYER;
     history := [ {| board := b0; xIsNext := true |};
                  {| board := b1; xIsNext := false |};
                  {| board := b2; xIsNext := true |};
                  {| board := b3; xIsNext := false |} ];
     stepNumber := 3;
     aiThinking := false |}.

(** What every transition maintains: the current step indexes an entry
    of the history, and the AI-pending flag is only ever set in single
    player mode. *)
Definition session_inv (s : state) : Prop :=
  (stepNumber s < length (history s))%nat
  /\ (aiThinking s = true -> mode s = MODE_SINGLE_PLAYER).

(** The two marks exchanged, on a slot, a board and an outcome. *)
Definition swap_cell (c : cell) : cell :=
  match c with Mk m => Mk (opponent m) | _ => c end.

Definition swap_board (bd : Board) : Board := map swap_cell bd.

Definition swap_winnerObj (r : winnerObj) : winnerObj :=
  {| winner := match winner r with
               | WMark m => WMark (opponent m)
               | WDraw => WDraw
               end;
     line := line r |}.

(** The entry every game starts from. *)
Definition initialEntry : entry :=
  {| board := getEmptyBoard; xIsNext := true |}.

(** A history that records one game: it starts at [initialEntry], and
    each later entry is the one a click appends to the entry before it,
    whose game was not over and whose clicked slot held no mark. *)
Definition game_trace (h : list entry) : Prop :=
  h !! 0%nat = Some initialEntry
  /\ forall n e e', h !! n = Some e -> h !! S n = Some e' ->
       calculateWinner (board e) = None
       /\ exists i, truthy (get (board e) i) = false /\ e' = next_entry e i.

(** The indices the [Board] component passes to [onSquareClick]:
    [renderSquare(row * 3 + col)] for rows and columns 0, 1, 2. *)
Definition boardSquares : list nat :=
  flat_map (fun row => map (fun col => row * 3 + col)%nat [0; 1; 2]%nat)
           [0; 1; 2]%nat.

(** The transitions the rendered page can cause: a [Square] button calls
    [onSquareClick(i)] for a rendered square, without the [isAI]
    argument; a [HistoryPanel] button calls [jumpTo(idx)] for an index of
    [history]; the [GamePanel] buttons call [handleRestart] and
    [switchMode]; and the AI effect runs.  (Buttons the page disables
    are not excluded.) *)
Inductive ui_step : state -> state -> Prop :=
| ui_click s i s' :
    i ∈ boardSquares -> handleSquareClick s i false = Some s' -> ui_step s s'
| ui_jump s n :
    (n < length (history s))%nat -> ui_step s (jumpTo s n)
| ui_restart s :
    ui_step s (handleRestart s)
| ui_switch s m :
    ui_step s (switchMode s m)
| ui_effect s s' :
    aiEffect s = Some s' -> ui_step s s'
| ui_timer s cur s' :
    current s = Some cur -> aiTurn s cur = true ->
    aiTimer s = Some s' -> ui_step s s'.

Definition ui_reachable (s : state) : Prop := rtc ui_step initialState s.

(** A sequence of clicks that are not AI-tagged, [None] as soon as one
    finds no current entry. *)
Fixpoint clicks (s : state) (cells : list nat) : option state :=
  match cells with
  | [] => Some s
  | i :: rest =>
      match handleSquareClick s i false with
      | Some s' => clicks s' rest
      | None => None
      end
  end.

(** What holds of the histories the page can produce: the board at step
    [n] is a legal board with exactly [n] marks. *)
Definition boards_legal (h : list entry) : Prop :=
  forall n e, h !! n = Some e ->
    legal_board (board e) /\ (unmarked (board e) + n = 9)%nat.

(** In single player mode O, to whom the AI's moves belong, can force
    at least a draw at every step of the history. *)
Definition ai_holds (s : state) : Prop :=
  mode s = MODE_SINGLE_PLAYER ->
  forall n e, history s !! n = Some e ->
    forces_draw PLAYER_O (mover e) (board e).

(** One round against the AI as the page plays it: a person's click on
    one of the nine squares, then, the effect's condition holding, the
    timer callback. *)
Definition playRound (s : state) (i : nat) : option state :=
  if bool_decide (i ∈ boardSquares) then
    match handleSquareClick s i false with
    | Some s1 =>
        match current s1 with
        | Some cur => if aiTurn s1 cur then aiTimer s1 else None
        | None => None
        end
    | None => None
    end
  else None.

Fixpoint playRounds (s : state) (cells : list nat) : option state :=
  match cells with
  | [] => Some s
  | i :: rest =>
      match playRound s i with
      | Some s' => playRounds s' rest
      | None => None
      end
  end.

(** [winnerObj ? winnerObj.line : null] *)
Definition winningLine_of (e : entry) : option Line :=
  match calculateWinner (board e) with
  | Some w => line w
  | None => None
  end.

(** [line.includes(i)] *)
Definition line_includes (l : Line) (i : nat) : bool :=
  let '(a, b, c) := l in
  bool_decide (i = a) || bool_decide (i = b) || bool_decide (i = c).

(** The [highlight] property [Board] passes to the square [i]:
    [winningLine && winningLine.includes(i)]. *)
Definition highlight (winningLine : option Line) (i : nat) : bool :=
  match winningLine with
  | Some l => line_includes l i
  | None => false
  end.

(** The rendered squares that get the highlight class, in render order. *)
Definition highlighted (e : entry) : list nat :=
  filter (fun i => highlight (winningLine_of e) i = true) boardSquares.

(** A button of [HistoryPanel]: the step its click passes to [jumpTo],
    whether it carries the selected class, and its label (["Start"] for
    index 0, ["Move #idx"] otherwise). *)
Inductive historyLabel : Set :=
| LabelStart
| LabelMove (n : nat).

Record historyButton : Set := mkHistoryButton {
  target : nat;
  selected : bool;
  label : historyLabel
}.

(** [history.map((step, idx) => ...)] *)
Definition historyButtons (s : state) : list historyButton :=
  imap (fun i _ =>
          {| target := i;
             selected := bool_decide (i = stepNumber s);
             label := if bool_decide (i = 0%nat) then LabelStart
                      else LabelMove i |})
       (history s).

(** The status line of [GamePanel]. *)
Inductive status : Set :=
| StatusDraw
| StatusWinner (m : mark)
| StatusNext (m : mark) (thinking : bool).

Definition statusOf (s : state) (cur : entry) : status :=
  match winner_of cur with
  | Some WDraw => StatusDraw
  | Some (WMark m) => StatusWinner m
  | None => StatusNext (if xIsNext cur then PLAYER_X else PLAYER_O)
                       (aiThinking s)
  end.

(** [setTheme(prev => (prev === 'light' ? 'dark' : 'light'))] *)
Definition toggleTheme (prev : String.string) : String.string :=
  if String.eqb prev "light"%string then "dark"%string else "light"%string.

(** ** The rules engine *)

Section Rules.

Variable bd : Board.

Lemma line_test a b c :
  truthy (get bd a) && strict_eq (get bd a) (get bd b)
    && strict_eq (get bd a) (get bd c) = true
  <-> completed bd (a, b, c).
Proof.
  unfold completed, holds_line. split.
  - intros H. apply andb_true_iff in H as [H Hc].
    apply andb_true_iff in H as [Ha Hb].
    destruct (get bd a) as [| | |m]; try discriminate.
    exists m. simpl in Hb, Hc.
    destruct (get bd b) as [| | |mb]; try discriminate.
    destruct (get bd c) as [| | |mc]; try discriminate.
    apply bool_decide_eq_true in Hb, Hc. by subst.
  - intros (m & -> & -> & ->). simpl.
    by rewrite bool_decide_eq_true_2.
Qed.

Lemma first_winning_line_none ls :
  (forall l, l ∈ ls -> ~ completed bd l) ->
  first_winning_line bd ls = None.
Proof.
  induction ls as [|[[a b] c] rest IH]; intros Hno; [done|].
  simpl. destruct (_ && _ && _) eqn:Ht.
  - exfalso. apply (Hno (a, b, c)); [left|]. by apply line_test.
  - apply IH. intros l Hl. apply Hno. by right.
Qed.

Lemma first_winning_line_first pre l post m :
  holds_line bd l m ->
  (forall l', l' ∈ pre -> ~ completed bd l') ->
  first_winning_line bd (pre ++ l :: post)
  = Some {| winner := WMark m; line := Some l |}.
Proof.
  intros Hl. induction pre as [|[[a b] c] pre IH]; intros Hpre.
  - destruct l as [[a b] c]. simpl.
    assert (Ht : completed bd (a, b, c)) by by exists m.
    apply line_test in Ht. rewrite Ht.
    destruct Hl as (-> & _ & _). done.
  - simpl. destruct (_ && _ && _) eqn:Ht.
    + exfalso. apply (Hpre (a, b, c)); [left|]. by apply line_test.
    + apply IH. intros l' Hl'. apply Hpre. by right.
Qed.

Lemma every_filled_true :
  Forall (fun c => c <> Hole) bd ->
  every_filled bd = true <-> (forall i, (i < length bd)%nat -> truthy (get bd i) = true).
Proof.
  intros Hh. unfold every_filled. rewrite forallb_forall. split.
  - intros H i Hi. apply lookup_lt_is_Some_2 in Hi as [c Hc].
    unfold get. rewrite Hc.
    assert (Hin : c ∈ bd) by by eapply list_elem_of_lookup_2.
    rewrite Forall_forall in Hh. specialize (Hh c Hin).
    apply list_elem_of_In in Hin. specialize (H c Hin). by destruct c.
  - intros H c Hin. apply list_elem_of_In, list_elem_of_lookup in Hin as [i Hi].
    specialize (H i (lookup_lt_Some _ _ _ Hi)). unfold get in H. rewrite Hi in H.
    destruct c; done.
Qed.

End Rules.

(** C1. On every nine-cell board, [calculateWinner] reports the first
    line, in the order rows, columns, diagonals, whose three cells hold
    one mark, with that mark; when no line is completed it reports a draw
    if all nine cells hold a mark, and [null] if some cell does not. *)
Theorem calculateWinner_spec (bd : Board) :
  nine_cells bd ->
  (forall pre l post m,
      lines = pre ++ l :: post ->
      holds_line bd l m ->
      (forall l', l' ∈ pre -> ~ completed bd l') ->
      calculateWinner bd = Some {| winner := WMark m; line := Some l |})
  /\ ((forall l, l ∈ lines -> ~ completed bd l) ->
      (forall i, (i < 9)%nat -> truthy (get bd i) = true) ->
      calculateWinner bd = Some {| winner := WDraw; line := None |})
  /\ ((forall l, l ∈ lines -> ~ completed bd l) ->
      (exists i, (i < 9)%nat /\ truthy (get bd i) = false) ->
      calculateWinner bd = None).
Proof.
  intros [Hlen Hh]. unfold calculateWinner. repeat split.
  - intros pre l post m -> Hl Hpre.
    by rewrite (first_winning_line_first bd pre l post m Hl Hpre).
  - intros Hno Hfull. rewrite (first_winning_line_none bd lines Hno).
    assert (every_filled bd = true) as ->; [|done].
    apply every_filled_true; [done|]. by rewrite Hlen.
  - intros Hno (i & Hi & He). rewrite (first_winning_line_none bd lines Hno).
    destruct (every_filled bd) eqn:Hf; [|done].
    pose proof (proj1 (every_filled_true bd Hh) Hf i) as Hi'.
    rewrite Hi' in He; [done|]. by rewrite Hlen.
Qed.

Lemma calculateWinner_spec_witness :
  let bd := [Mk PLAYER_X; Mk PLAYER_X; Mk PLAYER_X;
             Mk PLAYER_O; Mk PLAYER_O; Null;
             Null; Null; Null] in
  calculateWinner bd
  = Some {| winner := WMark PLAYER_X; line := Some (0, 1, 2)%nat |}.
Proof.
  intros bd.
  assert (Hn : nine_cells bd).
  { split; [reflexivity|]. repeat constructor; discriminate. }
  apply (proj1 (calculateWinner_spec bd Hn) [] (0, 1, 2)%nat
           (tail lines) PLAYER_X).
  - reflexivity.
  - repeat split.
  - intros l' Hl'. by apply elem_of_nil in Hl'.
Defined.

(** ** The search returns, and what it returns *)

Lemma unmarked_spread (bd : Board) : unmarked (spread bd) = unmarked bd.
Proof.
  unfold unmarked, spread. induction bd as [|c bd IH]; [done|].
  rewrite fmap_cons, !filter_cons.
  destruct c; simpl; repeat case_decide; simpl; try done; by f_equal.
Qed.

Lemma unmarked_insert (l : Board) j c p :
  l !! j = Some c -> truthy c = false ->
  S (unmarked (<[j:=Mk p]> l)) = unmarked l.
Proof.
  unfold unmarked. revert j. induction l as [|d l IH]; intros [|j] Hj Hc;
    try done; simpl in *.
  - injection Hj as ->. rewrite !filter_cons. simpl.
    repeat case_decide; try done; congruence.
  - rewrite !filter_cons. specialize (IH j Hj Hc).
    case_decide; simpl; lia.
Qed.

Lemma spread_lookup (bd : Board) j c :
  bd !! j = Some c ->
  spread bd !! j = Some (match c with Hole => Undef | _ => c end).
Proof. intros H. unfold spread. by rewrite list_lookup_fmap, H. Qed.

Lemma spread_length (bd : Board) : length (spread bd) = length bd.
Proof. apply length_map. Qed.

Lemma place_in_range (bd : Board) j p :
  (j < length bd)%nat -> place bd j p = <[j:=Mk p]> (spread bd).
Proof.
  intros Hj. unfold place, array_set. rewrite spread_length.
  by apply Nat.ltb_lt in Hj as ->.
Qed.

Lemma place_unmarked (bd : Board) j p :
  candidate bd j -> S (unmarked (place bd j p)) = unmarked bd.
Proof.
  intros (c & Hc & Hn). rewrite place_in_range by by eapply lookup_lt_Some.
  rewrite <- (unmarked_spread bd).
  eapply unmarked_insert; [by apply spread_lookup|]. by destruct c.
Qed.

Lemma elem_of_candidates_from i cells j :
  j ∈ candidates_from i cells
  <-> exists k c, j = (i + k)%nat /\ cells !! k = Some c /\ loose_null c = true.
Proof.
  revert i. induction cells as [|d cells IH]; intros i; simpl.
  - split; [by intros ?%elem_of_nil | by intros (k & c & _ & ? & _)].
  - assert (Hrest : j ∈ candidates_from (S i) cells
                    <-> exists k c, j = (i + S k)%nat /\ cells !! k = Some c
                                    /\ loose_null c = true).
    { rewrite IH. split; intros (k & c & -> & ? & ?); exists k, c;
        (split; [lia|done]). }
    destruct (loose_null d) eqn:Hd.
    + rewrite elem_of_cons, Hrest. split.
      * intros [->|(k & c & -> & ? & ?)].
        -- exists 0%nat, d. split; [lia|done].
        -- by exists (S k), c.
      * intros ([|k] & c & -> & Hk & Hc); simpl in Hk.
        -- left. lia.
        -- right. by exists k, c.
    + rewrite Hrest. split.
      * intros (k & c & -> & ? & ?). by exists (S k), c.
      * intros ([|k] & c & -> & Hk & Hc); simpl in Hk.
        -- injection Hk as ->. congruence.
        -- by exists k, c.
Qed.

Lemma elem_of_candidates (bd : Board) j : j ∈ candidates bd <-> candidate bd j.
Proof.
  unfold candidates, candidate. rewrite elem_of_candidates_from.
  split; [intros (k & c & -> & ? & ?) | intros (c & ? & ?)].
  - by exists c.
  - by exists j, c.
Qed.

Lemma candidates_from_sorted i cells :
  StronglySorted lt (candidates_from i cells).
Proof.
  revert i. induction cells as [|d cells IH]; intros i; simpl; [constructor|].
  destruct (loose_null d); [|apply IH].
  constructor; [apply IH|]. apply Forall_forall. intros j Hj.
  apply elem_of_candidates_from in Hj as (k & c & -> & _). lia.
Qed.

Lemma forEach_moves_map search (bd : Board) p (r : nat -> result) i cells :
  (forall j, j ∈ candidates_from i cells -> search (place bd j p) = Some (r j)) ->
  forEach_moves search bd p i cells
  = Some (map (fun j => {| idx := Idx j; score := - score (r j) |})
              (candidates_from i cells)).
Proof.
  revert i. induction cells as [|c cells IH]; intros i Hs; [done|].
  simpl in *. destruct c; simpl in *; try (apply IH, Hs).
  - fold (place bd i p). rewrite (Hs i) by left.
    rewrite IH; [done|]. intros j Hj. apply Hs. by right.
  - fold (place bd i p). rewrite (Hs i) by left.
    rewrite IH; [done|]. intros j Hj. apply Hs. by right.
Qed.

Lemma depth_sufficient n : forall d (bd : Board) p q,
  (unmarked bd <= n)%nat -> (unmarked bd < d)%nat ->
  getBestAIMove_depth d bd p q = Some (search_body bd p q).
Proof.
  induction n as [|n IH]; intros d bd p q Hn Hd;
    (destruct d as [|d]; [lia|]); simpl; unfold search_body;
    (destruct (terminal_score _ _ _) as [s|]; [done|]).
  - assert (Hnil : candidates bd = []).
    { apply elem_of_nil_inv. intros j Hj%elem_of_candidates.
      pose proof (place_unmarked bd j p Hj). lia. }
    rewrite (forEach_moves_map _ bd p (fun _ => {| idx := NoIdx; score := 0 |})).
    + unfold moves_of. fold (candidates bd). by rewrite Hnil.
    + fold (candidates bd). rewrite Hnil. by intros j ?%elem_of_nil.
  - rewrite (forEach_moves_map _ bd p (fun j => search_body (place bd j p) q p)).
    + fold (candidates bd).
      assert (Heq : map (fun j => {| idx := Idx j;
                                   score := - score (search_body (place bd j p) q p) |})
                      (candidates bd) = moves_of bd p q).
      { unfold moves_of. apply map_ext_in. intros j Hj.
        apply list_elem_of_In, elem_of_candidates in Hj.
        pose proof (place_unmarked bd j p Hj).
        unfold search_score, getBestAIMove.
        rewrite IH by lia. done. }
      rewrite Heq. by destruct (reduce_best _).
    + intros j Hj%elem_of_candidates.
      pose proof (place_unmarked bd j p Hj). apply IH; lia.
Qed.

(** The search returns on every board, and its result obeys the
    recursive equation of the source. *)
Lemma getBestAIMove_unfold (bd : Board) p q :
  getBestAIMove bd p q = Some (search_body bd p q).
Proof. unfold getBestAIMove. apply (depth_sufficient (unmarked bd)); lia. Qed.

Lemma search_score_unfold (bd : Board) p q :
  search_score bd p q = score (search_body bd p q).
Proof. unfold search_score. by rewrite getBestAIMove_unfold. Qed.

(** [reduce] keeps the first of the moves with the greatest score. *)
Lemma reduce_best_snoc ms x :
  reduce_best (ms ++ [x])
  = match reduce_best ms with
    | None => Some x
    | Some a => if score x >? score a then Some x else Some a
    end.
Proof. unfold reduce_best. by rewrite fold_left_app. Qed.

Lemma reduce_best_spec ms :
  match reduce_best ms with
  | None => ms = []
  | Some m =>
      exists pre post, ms = pre ++ m :: post
        /\ (forall x, x ∈ pre -> score x < score m)
        /\ (forall x, x ∈ post -> score x <= score m)
  end.
Proof.
  induction ms as [|x ms IH] using rev_ind; [done|].
  rewrite reduce_best_snoc. destruct (reduce_best ms) as [m|].
  - destruct IH as (pre & post & -> & Hpre & Hpost).
    destruct (score x >? score m) eqn:Hx.
    + apply Z.gtb_lt in Hx. exists (pre ++ m :: post), []. split; [done|].
      split; [|by intros ? ?%elem_of_nil].
      intros y [Hy|[->|Hy]%elem_of_cons]%elem_of_app.
      * specialize (Hpre y Hy). lia.
      * lia.
      * specialize (Hpost y Hy). lia.
    + exists pre, (post ++ [x]). split; [by rewrite <- app_assoc|].
      split; [done|]. intros y [Hy|Hy%list_elem_of_singleton]%elem_of_app.
      * by apply Hpost.
      * subst y. pose proof (Zgt_is_gt_bool (score x) (score m)).
        destruct (Z.gtb_spec (score x) (score m)); [done|lia].
  - subst ms. exists [], []. split; [done|].
    split; by intros ? ?%elem_of_nil.
Qed.

Lemma candidates_split (bd : Board) l1 j l2 j' :
  candidates bd = l1 ++ j :: l2 ->
  candidate bd j' -> (j' < j)%nat -> j' ∈ l1.
Proof.
  intros Heq Hc Hlt. apply elem_of_candidates in Hc.
  pose proof (candidates_from_sorted 0 bd) as Hs. fold (candidates bd) in Hs.
  rewrite Heq in Hc, Hs.
  apply elem_of_app in Hc as [Hc|Hc]; [done|].
  apply elem_of_cons in Hc as [->|Hc]; [lia|].
  exfalso. eapply Nat.lt_irrefl. etrans; [exact Hlt|].
  apply (StronglySorted_app_1_elem_of lt (l1 ++ [j]) l2).
  - by rewrite <- app_assoc.
  - set_solver.
  - done.
Qed.

(** [reduce] over a list of moves built by [map]. *)
Lemma reduce_best_map {A} (ix : A -> index) (sc : A -> Z) (l : list A) :
  match reduce_best (map (fun a => {| idx := ix a; score := sc a |}) l) with
  | None => l = []
  | Some m =>
      exists l1 a l2, l = l1 ++ a :: l2
        /\ m = {| idx := ix a; score := sc a |}
        /\ (forall x, x ∈ l1 -> sc x < sc a)
        /\ (forall x, x ∈ l2 -> sc x <= sc a)
  end.
Proof.
  set (f := fun a => {| idx := ix a; score := sc a |}).
  pose proof (reduce_best_spec (map f l)) as Hr.
  destruct (reduce_best (map f l)) as [m|].
  - destruct Hr as (pre & post & Heq & Hpre & Hpost).
    apply map_eq_app in Heq as (l1 & l2' & -> & <- & Hl2).
    apply map_eq_cons in Hl2 as (a & l2 & -> & <- & <-).
    exists l1, a, l2. split; [done|]. split; [done|].
    split; intros x Hx; [apply (Hpre (f x))|apply (Hpost (f x))];
      apply list_elem_of_In, in_map; by apply list_elem_of_In.
  - by apply map_eq_nil in Hr.
Qed.

Lemma search_body_search (bd : Board) p q :
  terminal_score (calculateWinner bd) p q = None ->
  search_body bd p q
  = match reduce_best (moves_of bd p q) with
    | Some best => best
    | None => {| idx := NullIdx; score := 0 |}
    end.
Proof. unfold search_body. by intros ->. Qed.

(** The move chosen when control reaches the search and some slot is a
    candidate: the first candidate, in index order, of greatest score. *)
Lemma search_move_spec (bd : Board) p q :
  terminal_score (calculateWinner bd) p q = None ->
  (exists i, candidate bd i) ->
  exists j,
    search_body bd p q
    = {| idx := Idx j; score := - search_score (place bd j p) q p |}
    /\ search_score bd p q = - search_score (place bd j p) q p
    /\ candidate bd j
    /\ (forall j', candidate bd j' ->
          - search_score (place bd j' p) q p
          <= - search_score (place bd j p) q p)
    /\ (forall j', candidate bd j' -> (j' < j)%nat ->
          - search_score (place bd j' p) q p
          < - search_score (place bd j p) q p).
Proof.
  intros Ht [i Hi].
  rewrite search_score_unfold, (search_body_search bd p q Ht).
  pose proof (reduce_best_map Idx
    (fun j => - search_score (place bd j p) q p) (candidates bd)) as Hr.
  cbv beta in Hr. fold (moves_of bd p q) in Hr.
  destruct (reduce_best (moves_of bd p q)) as [m|].
  - destruct Hr as (l1 & j & l2 & Hc & -> & Hpre & Hpost).
    exists j. split; [reflexivity|]. split; [reflexivity|].
    split; [apply elem_of_candidates; rewrite Hc; set_solver|].
    split.
    + intros j' Hj'. apply elem_of_candidates in Hj'. rewrite Hc in Hj'.
      apply elem_of_app in Hj' as [Hj'|[->|Hj']%elem_of_cons].
      * apply Z.lt_le_incl. exact (Hpre j' Hj').
      * apply Z.le_refl.
      * exact (Hpost j' Hj').
    + intros j' Hj' Hlt.
      exact (Hpre j' (candidates_split bd l1 j l2 j' Hc Hj' Hlt)).
  - exfalso. apply elem_of_candidates in Hi. rewrite Hr in Hi.
    by apply elem_of_nil in Hi.
Qed.

Lemma terminal_score_bound res p q s :
  terminal_score res p q = Some s -> -1 <= s <= 1.
Proof.
  unfold terminal_score. destruct res as [r|]; [|done].
  repeat case_bool_decide; intros [= <-]; lia.
Qed.

Lemma search_body_bound n : forall (bd : Board) p q,
  (unmarked bd <= n)%nat -> -1 <= score (search_body bd p q) <= 1.
Proof.
  induction n as [|n IH]; intros bd p q Hn;
    (destruct (terminal_score (calculateWinner bd) p q) as [s|] eqn:Ht;
     [unfold search_body; rewrite Ht; by eapply terminal_score_bound|]);
    (destruct (decide (candidates bd = [])) as [Hnil|Hne];
     [unfold search_body, moves_of; rewrite Ht, Hnil; simpl; lia|]).
  - destruct (candidates bd) as [|j l] eqn:Hc; [done|].
    assert (Hj : candidate bd j) by (apply elem_of_candidates; rewrite Hc; left).
    pose proof (place_unmarked bd j p Hj). lia.
  - destruct (search_move_spec bd p q Ht) as (j & _ & Hs & Hj & _).
    { destruct (candidates bd) as [|j l] eqn:Hc; [done|].
      exists j. apply elem_of_candidates. rewrite Hc. left. }
    rewrite <- search_score_unfold, Hs, search_score_unfold.
    pose proof (place_unmarked bd j p Hj).
    specialize (IH (place bd j p) q p). lia.
Qed.

Lemma search_score_bound (bd : Board) p q : -1 <= search_score bd p q <= 1.
Proof.
  rewrite search_score_unfold. by apply (search_body_bound (unmarked bd)).
Qed.

(** C5. When [calculateWinner] reports an outcome, the search for [p]
    against the other player [q] returns a score and no index: [1] if [p]
    won, [-1] if [q] won, [0] on a draw. *)
Theorem getBestAIMove_terminal (bd : Board) (p q : mark) (r : winnerObj) :
  p <> q ->
  calculateWinner bd = Some r ->
  exists s,
    getBestAIMove bd p q = Some {| idx := NoIdx; score := s |}
    /\ (winner r = WMark p -> s = 1)
    /\ (winner r = WMark q -> s = -1)
    /\ (winner r = WDraw -> s = 0).
Proof.
  intros Hpq Hr. rewrite getBestAIMove_unfold. unfold search_body.
  rewrite Hr. unfold terminal_score.
  destruct (winner r) as [m|] eqn:Hw.
  - destruct (decide (m = p)) as [->|Hm].
    + rewrite bool_decide_eq_true_2 by done. exists 1.
      split; [done|]. repeat split; [|done]. intros [= ->]. done.
    + assert (m = q) as -> by (destruct m, p, q; done).
      rewrite bool_decide_eq_false_2 by congruence.
      rewrite bool_decide_eq_true_2 by done. exists (-1).
      split; [done|]. repeat split; [|done]. intros [= ->]. done.
  - rewrite !bool_decide_eq_false_2 by done.
    rewrite bool_decide_eq_true_2 by done. exists 0.
    split; [done|]. by repeat split.
Qed.

Lemma getBestAIMove_terminal_witness :
  exists s,
    getBestAIMove
      [Mk PLAYER_X; Mk PLAYER_X; Mk PLAYER_X;
       Mk PLAYER_O; Mk PLAYER_O; Null; Null; Null; Null]
      PLAYER_O PLAYER_X
    = Some {| idx := NoIdx; score := s |}
    /\ (WMark PLAYER_X = WMark PLAYER_O -> s = 1)
    /\ (WMark PLAYER_X = WMark PLAYER_X -> s = -1)
    /\ (WMark PLAYER_X = WDraw -> s = 0).
Proof.
  apply (getBestAIMove_terminal _ PLAYER_O PLAYER_X
           {| winner := WMark PLAYER_X; line := Some (0, 1, 2)%nat |}).
  - discriminate.
  - reflexivity.
Defined.

(** C4. On a board that is not over and has an empty cell, the search
    returns the candidate move whose negated recursive score is greatest,
    and of several such moves the one of lowest index. *)
Theorem getBestAIMove_first_maximum (bd : Board) (p q : mark) :
  calculateWinner bd = None ->
  (exists i, candidate bd i) ->
  exists j r,
    getBestAIMove (place bd j p) q p = Some r
    /\ getBestAIMove bd p q = Some {| idx := Idx j; score := - score r |}
    /\ candidate bd j
    /\ (forall j' r', candidate bd j' ->
          getBestAIMove (place bd j' p) q p = Some r' ->
          - score r' <= - score r /\ ((j' < j)%nat -> - score r' < - score r)).
Proof.
  intros Hw Hex.
  destruct (search_move_spec bd p q) as (j & Hb & _ & Hj & Hmax & Hfirst);
    [by rewrite Hw|done|].
  exists j, (search_body (place bd j p) q p).
  split; [apply getBestAIMove_unfold|].
  rewrite getBestAIMove_unfold, Hb, search_score_unfold.
  split; [done|]. split; [done|].
  intros j' r' Hj' Hr'. rewrite getBestAIMove_unfold in Hr'.
  injection Hr' as <-. rewrite <- !search_score_unfold.
  split; [by apply Hmax|by apply Hfirst].
Qed.

Lemma getBestAIMove_first_maximum_witness :
  exists j r,
    getBestAIMove (place getEmptyBoard j PLAYER_O) PLAYER_X PLAYER_O = Some r
    /\ getBestAIMove getEmptyBoard PLAYER_O PLAYER_X
       = Some {| idx := Idx j; score := - score r |}
    /\ candidate getEmptyBoard j
    /\ (forall j' r', candidate getEmptyBoard j' ->
          getBestAIMove (place getEmptyBoard j' PLAYER_O) PLAYER_X PLAYER_O
          = Some r' ->
          - score r' <= - score r /\ ((j' < j)%nat -> - score r' < - score r)).
Proof.
  apply (getBestAIMove_first_maximum getEmptyBoard PLAYER_O PLAYER_X).
  - reflexivity.
  - exists 0%nat, Null. split; reflexivity.
Defined.

(** ** Immediate wins *)

(** C3, as stated, fails: on [fork_board] cell 8 wins at once for O, yet
    the search returns cell 4, after which the game is not over. *)
Lemma immediate_win_not_preferred :
  calculateWinner fork_board = None
  /\ immediate_win fork_board PLAYER_O 8
  /\ getBestAIMove fork_board PLAYER_O PLAYER_X
     = Some {| idx := Idx 4; score := 1 |}
  /\ calculateWinner (place fork_board 4 PLAYER_O) = None
  /\ ~ immediate_win fork_board PLAYER_O 4.
Proof.
  split; [reflexivity|]. split.
  { split; [exists Null; by split|].
    exists {| winner := WMark PLAYER_O; line := Some (6, 7, 8)%nat |}.
    by split. }
  split; [by vm_compute|]. split; [reflexivity|].
  intros [_ (r & Hr & _)]. vm_compute in Hr. discriminate.
Qed.

(** C3, amended. On a board that is not over, when some empty cell wins
    at once for [p], the search for [p] against the other player [q]
    returns score [1] and the lowest-indexed empty cell from which [p]
    wins against every reply (the opponent's search there scores [-1]);
    that cell is at or before every immediately winning cell. *)
Theorem getBestAIMove_takes_first_forced_win (bd : Board) (p q : mark) (i : nat) :
  p <> q ->
  calculateWinner bd = None ->
  immediate_win bd p i ->
  exists j r,
    getBestAIMove bd p q = Some {| idx := Idx j; score := 1 |}
    /\ candidate bd j
    /\ (j <= i)%nat
    /\ getBestAIMove (place bd j p) q p = Some r /\ score r = -1
    /\ (forall j' r', candidate bd j' -> (j' < j)%nat ->
          getBestAIMove (place bd j' p) q p = Some r' -> score r' <> -1).
Proof.
  intros Hpq Hw [Hi (r & Hr & Hwin)].
  destruct (search_move_spec bd p q) as (j & Hb & _ & Hj & Hmax & Hfirst);
    [by rewrite Hw|by exists i|].
  assert (Hsi : search_score (place bd i p) q p = -1).
  { rewrite search_score_unfold. unfold search_body, terminal_score.
    rewrite Hr, Hwin.
    rewrite bool_decide_eq_false_2 by congruence.
    by rewrite bool_decide_eq_true_2. }
  pose proof (Hmax i Hi) as Hle. rewrite Hsi in Hle.
  pose proof (search_score_bound (place bd j p) q p) as Hbd.
  assert (Hsj : search_score (place bd j p) q p = -1) by lia.
  exists j, (search_body (place bd j p) q p).
  rewrite !getBestAIMove_unfold, Hb, Hsj, <- search_score_unfold.
  split; [done|]. split; [done|]. split.
  { destruct (decide (j <= i)%nat) as [|Hn]; [done|].
    assert (Hlt : (i < j)%nat) by lia.
    specialize (Hfirst i Hi Hlt). lia. }
  split; [done|]. split; [done|].
  intros j' r' Hj' Hlt Hr'. rewrite getBestAIMove_unfold in Hr'.
  injection Hr' as <-. rewrite <- search_score_unfold.
  specialize (Hfirst j' Hj' Hlt). lia.
Qed.

Lemma getBestAIMove_takes_first_forced_win_witness :
  exists j r,
    getBestAIMove fork_board PLAYER_O PLAYER_X
    = Some {| idx := Idx j; score := 1 |}
    /\ candidate fork_board j
    /\ (j <= 8)%nat
    /\ getBestAIMove (place fork_board j PLAYER_O) PLAYER_X PLAYER_O = Some r
    /\ score r = -1
    /\ (forall j' r', candidate fork_board j' -> (j' < j)%nat ->
          getBestAIMove (place fork_board j' PLAYER_O) PLAYER_X PLAYER_O
          = Some r' -> score r' <> -1).
Proof.
  apply (getBestAIMove_takes_first_forced_win fork_board PLAYER_O PLAYER_X 8).
  - discriminate.
  - reflexivity.
  - split; [exists Null; split; reflexivity|].
    exists {| winner := WMark PLAYER_O; line := Some (6, 7, 8)%nat |}.
    split; reflexivity.
Defined.

(** ** Game value *)

Lemma opponent_involutive t : opponent (opponent t) = t.
Proof. by destruct t. Qed.

Lemma opponent_neq t : opponent t <> t.
Proof. by destruct t. Qed.

Section Forces.

Variable good : winner_t -> Prop.
Variables p t : mark.
Variable bd : Board.

Lemma forces_over r :
  calculateWinner bd = Some r ->
  forces good p t bd <-> good (winner r).
Proof.
  intros Hr. split.
  - inversion 1; congruence.
  - by apply forces_end.
Qed.

Lemma forces_on_own_turn :
  calculateWinner bd = None -> t = p ->
  forces good p t bd
  <-> exists i, empty_cell bd i /\ forces good p (opponent t) (play bd i t).
Proof.
  intros Hw Ht. split.
  - inversion 1; subst; try congruence. by exists i.
  - intros (i & ? & ?). by eapply forces_own.
Qed.

Lemma forces_on_reply :
  calculateWinner bd = None -> t <> p ->
  (exists i, empty_cell bd i) ->
  forces good p t bd
  <-> forall i, empty_cell bd i -> forces good p (opponent t) (play bd i t).
Proof.
  intros Hw Ht Hex. split.
  - inversion 1; subst; try congruence. done.
  - intros Hall. by apply forces_reply.
Qed.

End Forces.

Section Legal.

Variable bd : Board.
Hypothesis Hlegal : legal_board bd.

Lemma legal_spread : spread bd = bd.
Proof.
  destruct Hlegal as [_ Hall]. clear Hlegal. unfold spread.
  induction bd as [|c l IH]; [done|].
  apply Forall_cons in Hall as [Hc Hl]. simpl. rewrite (IH Hl).
  by destruct Hc as [->|[m ->]].
Qed.

Lemma legal_candidate i : candidate bd i <-> empty_cell bd i.
Proof.
  destruct Hlegal as [_ Hall]. rewrite Forall_forall in Hall.
  unfold candidate, empty_cell. split.
  - intros (c & Hc & Hn).
    destruct (Hall c (list_elem_of_lookup_2 _ _ _ Hc)) as [->|[m ->]]; done.
  - intros Hc. by exists Null.
Qed.

Lemma legal_place i t : empty_cell bd i -> place bd i t = play bd i t.
Proof.
  intros Hi. rewrite place_in_range by by eapply lookup_lt_Some.
  by rewrite legal_spread.
Qed.

Lemma legal_play i t : legal_board (play bd i t).
Proof.
  destruct Hlegal as [Hlen Hall]. unfold play. split.
  - by rewrite length_insert.
  - apply Forall_insert; [done|]. right. by exists t.
Qed.

Lemma legal_ongoing_has_empty :
  calculateWinner bd = None -> exists i, empty_cell bd i.
Proof.
  destruct Hlegal as [_ Hall]. unfold calculateWinner.
  destruct (first_winning_line bd lines); [done|].
  destruct (every_filled bd) eqn:Hf; [done|]. intros _.
  assert (Hin : Null ∈ bd).
  { clear Hlegal. unfold every_filled in Hf.
    induction bd as [|c l IH]; [done|].
    apply Forall_cons in Hall as [Hc Hl]. simpl in Hf.
    destruct Hc as [->|[m ->]]; [left|].
    right. by apply IH. }
  by apply list_elem_of_lookup in Hin.
Qed.

End Legal.

(** The search score is the value of the position, seen from both
    sides: [1] exactly when the mover forces a win, non-negative exactly
    when the mover forces at least a draw, and dually for the player who
    waits. *)
Lemma search_value n : forall (bd : Board) t,
  legal_board bd -> (unmarked bd <= n)%nat ->
  (search_score bd t (opponent t) = 1 <-> forces_win t t bd)
  /\ (0 <= search_score bd t (opponent t) <-> forces_draw t t bd)
  /\ (search_score bd t (opponent t) = -1 <-> forces_win (opponent t) t bd)
  /\ (search_score bd t (opponent t) <= 0 <-> forces_draw (opponent t) t bd).
Proof.
  induction n as [|n IH]; intros bd t Hl Hn;
    (destruct (calculateWinner bd) as [r|] eqn:Hw;
     [ unfold forces_win, forces_draw;
       rewrite !(forces_over _ _ _ _ r Hw), search_score_unfold;
       unfold search_body, terminal_score; rewrite Hw;
       destruct t, (winner r) as [[]|]; simpl;
       repeat split; intros; try done; try lia; auto;
       match goal with H : _ \/ _ |- _ => by destruct H end
     | ]);
    destruct (legal_ongoing_has_empty bd Hl Hw) as [i0 Hi0].
  - apply (legal_candidate bd Hl) in Hi0.
    pose proof (place_unmarked bd i0 t Hi0). lia.
  - destruct (search_move_spec bd t (opponent t))
      as (j & _ & Hb & Hj & Hmax & _);
      [by rewrite Hw|exists i0; by apply legal_candidate|].
    set (s := search_score bd t (opponent t)) in *.
    set (ss := fun i => search_score (play bd i t) (opponent t) t).
    assert (Hmax' : forall i, empty_cell bd i -> - ss i <= s).
    { intros i Hi. unfold ss. rewrite <- (legal_place bd Hl i t Hi), Hb.
      by apply Hmax, legal_candidate. }
    apply (legal_candidate bd Hl) in Hj.
    assert (Hsj : s = - ss j) by (unfold ss; by rewrite <- legal_place).
    assert (Hbd : forall i, -1 <= ss i <= 1)
      by (intros i; apply search_score_bound).
    assert (Hih : forall i, empty_cell bd i ->
              (ss i = 1 <-> forces_win (opponent t) (opponent t) (play bd i t))
              /\ (0 <= ss i <-> forces_draw (opponent t) (opponent t) (play bd i t))
              /\ (ss i = -1 <-> forces_win t (opponent t) (play bd i t))
              /\ (ss i <= 0 <-> forces_draw t (opponent t) (play bd i t))).
    { intros i Hi. unfold ss.
      assert (Hu : (unmarked (play bd i t) <= n)%nat).
      { rewrite <- (legal_place bd Hl i t Hi).
        pose proof (place_unmarked bd i t (proj2 (legal_candidate bd Hl i) Hi)).
        lia. }
      pose proof (IH (play bd i t) (opponent t) (legal_play bd Hl i t) Hu) as H.
      by rewrite opponent_involutive in H. }
    clearbody s ss. unfold forces_win, forces_draw.
    pose proof (opponent_neq t) as Hne.
    assert (Hne' : t <> opponent t) by congruence.
    rewrite !(forces_on_own_turn _ t t bd Hw eq_refl).
    rewrite !(forces_on_reply _ (opponent t) t bd Hw Hne' (ex_intro _ i0 Hi0)).
    fold (forces_win t) (forces_draw t)
         (forces_win (opponent t)) (forces_draw (opponent t)).
    repeat split.
    + intros Hs. exists j. split; [done|]. apply (Hih j Hj). lia.
    + intros (i & Hi & Hf). apply (Hih i Hi) in Hf.
      specialize (Hmax' i Hi). specialize (Hbd j). lia.
    + intros Hs. exists j. split; [done|]. apply (Hih j Hj). lia.
    + intros (i & Hi & Hf). apply (Hih i Hi) in Hf.
      specialize (Hmax' i Hi). lia.
    + intros Hs i Hi. apply (Hih i Hi).
      specialize (Hmax' i Hi). specialize (Hbd i). lia.
    + intros Hall. specialize (Hall j Hj). apply (Hih j Hj) in Hall. lia.
    + intros Hs i Hi. apply (Hih i Hi). specialize (Hmax' i Hi). lia.
    + intros Hall. specialize (Hall j Hj). apply (Hih j Hj) in Hall. lia.
Qed.

(** C2. On every legal board the score returned for the player to move
    is the value of the position: [1] when that player can force a win,
    else [0] when a draw can be forced, else [-1], and then the opponent
    forces a win.  Played for both sides from the empty board, the search
    ends the game in a draw. *)
Theorem getBestAIMove_plays_perfectly :
  (forall (bd : Board) (p : mark),
      legal_board bd ->
      exists r,
        getBestAIMove bd p (opponent p) = Some r
        /\ ((score r = 1 /\ forces_win p p bd)
            \/ (score r = 0 /\ ~ forces_win p p bd /\ forces_draw p p bd)
            \/ (score r = -1 /\ ~ forces_draw p p bd
                /\ forces_win (opponent p) p bd)))
  /\ selfPlay 9 getEmptyBoard PLAYER_X PLAYER_O
     = Some {| winner := WDraw; line := None |}.
Proof.
  split; [|vm_compute; reflexivity].
  intros bd p Hl. exists (search_body bd p (opponent p)).
  split; [apply getBestAIMove_unfold|].
  rewrite <- search_score_unfold.
  destruct (search_value (unmarked bd) bd p Hl (le_n _))
    as (Hwin & Hdraw & Hloss & _).
  pose proof (search_score_bound bd p (opponent p)) as Hb.
  destruct (decide (search_score bd p (opponent p) = 1)) as [H1|H1].
  { left. split; [done|]. by apply Hwin. }
  right. destruct (decide (search_score bd p (opponent p) = 0)) as [H0|H0].
  { left. split; [done|]. split; [by rewrite <- Hwin|]. apply Hdraw. lia. }
  right. assert (Hm : search_score bd p (opponent p) = -1) by lia.
  split; [done|]. split; [|by apply Hloss].
  rewrite <- Hdraw. lia.
Qed.

Lemma getBestAIMove_plays_perfectly_witness :
  exists r,
    getBestAIMove fork_board PLAYER_O (opponent PLAYER_O) = Some r
    /\ ((score r = 1 /\ forces_win PLAYER_O PLAYER_O fork_board)
        \/ (score r = 0 /\ ~ forces_win PLAYER_O PLAYER_O fork_board
            /\ forces_draw PLAYER_O PLAYER_O fork_board)
        \/ (score r = -1 /\ ~ forces_draw PLAYER_O PLAYER_O fork_board
            /\ forces_win (opponent PLAYER_O) PLAYER_O fork_board)).
Proof.
  apply (proj1 getBestAIMove_plays_perfectly fork_board PLAYER_O).
  split; [reflexivity|].
  repeat (apply Forall_cons_2; [first [by left | right; by eexists]|]).
  apply Forall_nil_2.
Defined.

(** ** The session handlers *)

Lemma get_spread (bd : Board) n : get (spread bd) n = get bd n.
Proof.
  unfold get, spread. rewrite list_lookup_fmap.
  by destruct (bd !! n) as [[]|].
Qed.

Lemma array_set_lookup (bd : Board) i v : array_set bd i v !! i = Some v.
Proof.
  unfold array_set. destruct (Nat.ltb_spec i (length bd)).
  - by apply list_lookup_insert_eq.
  - rewrite lookup_app_r by done.
    rewrite lookup_app_r by by rewrite length_replicate.
    by rewrite length_replicate, Nat.sub_diag.
Qed.

Lemma get_array_set_eq (bd : Board) i m : get (array_set bd i (Mk m)) i = Mk m.
Proof. unfold get. by rewrite array_set_lookup. Qed.

Lemma get_array_set_ne (bd : Board) i v n :
  n <> i -> get (array_set bd i v) n = get bd n.
Proof.
  intros Hn. unfold get, array_set. destruct (Nat.ltb_spec i (length bd)).
  - by rewrite list_lookup_insert_ne.
  - destruct (decide (n < length bd)%nat) as [Hlt|Hge].
    + by rewrite lookup_app_l.
    + rewrite (lookup_ge_None_2 bd n) by lia.
      rewrite lookup_app_r by lia.
      destruct (decide (n < i)%nat).
      * rewrite lookup_app_l by (rewrite length_replicate; lia).
        rewrite lookup_replicate_2; [done|lia].
      * rewrite lookup_ge_None_2; [done|].
        rewrite length_app, length_replicate. simpl. lia.
Qed.

Lemma array_set_length_ge (bd : Board) i v :
  (length bd <= i)%nat -> length (array_set bd i v) = S i.
Proof.
  intros Hi. unfold array_set. apply Nat.ltb_ge in Hi as Hb. rewrite Hb.
  rewrite !length_app, length_replicate. simpl. lia.
Qed.

Lemma handleSquareClick_cases s cur i isAI :
  current s = Some cur ->
  (accepts s cur i isAI
   /\ handleSquareClick s i isAI
      = Some {| mode := mode s;
                history := take (S (stepNumber s)) (history s)
                             ++ [next_entry cur i];
                stepNumber := S (stepNumber s);
                aiThinking := aiThinking s |})
  \/ (~ accepts s cur i isAI /\ handleSquareClick s i isAI = Some s).
Proof.
  intros Hcur. unfold handleSquareClick, accepts, winner_of. rewrite Hcur.
  assert (Hk : (stepNumber s < length (history s))%nat)
    by by eapply lookup_lt_Some.
  assert (Hstep : forall e,
            (length (take (S (stepNumber s)) (history s) ++ [e]) - 1)%nat
            = S (stepNumber s)).
  { intros e. rewrite length_app, length_take. simpl length. lia. }
  cbv zeta. rewrite Hstep. fold (mover cur). fold (next_entry cur i).
  destruct (calculateWinner (board cur)) as [w|] eqn:Hw.
  { right. rewrite bool_decide_eq_true_2 by by eexists. simpl.
    split; [|done]. by intros [? _]. }
  rewrite bool_decide_eq_false_2 by by intros [? ?]. simpl.
  destruct (truthy (get (board cur) i)) eqn:Ho; simpl.
  { right. split; [|done]. by intros (_ & ? & _). }
  destruct (mode s) eqn:Hm, (aiThinking s) eqn:Ha, isAI, (xIsNext cur) eqn:Hx;
    simpl;
    try (right; split; [intros (_ & _ & [?|[?|[? ?]]]); congruence|done]);
    left; (split; [split; [done|split; [done|]]; auto|done]).
Qed.

Lemma moved_differs s e :
  (stepNumber s < length (history s))%nat ->
  {| mode := mode s;
     history := take (S (stepNumber s)) (history s) ++ [e];
     stepNumber := S (stepNumber s);
     aiThinking := aiThinking s |} <> s.
Proof.
  intros Hk Heq. apply (f_equal stepNumber) in Heq. simpl in Heq. lia.
Qed.

(** C6. A click that passes the guards of [handleSquareClick] (the game
    at the current step [k] is not over, the target slot holds no mark,
    and neither turn guard applies) is accepted: the session changes, the
    first [k + 1] entries are kept, the later ones are dropped and one
    entry is appended, whose board is the step-[k] board with the mover's
    mark written at the chosen cell; the new entry becomes the current
    step [k + 1], the last index. *)
Theorem handleSquareClick_truncates_and_appends
    (s : state) (cur : entry) (i : nat) (isAI : bool) :
  current s = Some cur ->
  calculateWinner (board cur) = None ->
  truthy (get (board cur) i) = false ->
  ~ (mode s = MODE_SINGLE_PLAYER /\ aiThinking s = true /\ isAI = false) ->
  ~ (isAI = false /\ mode s = MODE_SINGLE_PLAYER /\ xIsNext cur = false) ->
  exists s',
    handleSquareClick s i isAI = Some s'
    /\ s' <> s
    /\ history s' = take (S (stepNumber s)) (history s) ++ [next_entry cur i]
    /\ length (history s') = S (S (stepNumber s))
    /\ (forall n, (n <= stepNumber s)%nat -> history s' !! n = history s !! n)
    /\ history s' !! stepNumber s = Some cur
    /\ stepNumber s' = S (stepNumber s)
    /\ stepNumber s' = (length (history s') - 1)%nat
    /\ current s' = Some (next_entry cur i)
    /\ xIsNext (next_entry cur i) = negb (xIsNext cur)
    /\ get (board (next_entry cur i)) i = Mk (mover cur)
    /\ (forall n, n <> i ->
          get (board (next_entry cur i)) n = get (board cur) n)
    /\ (legal_board (board cur) -> (i < 9)%nat ->
          board (next_entry cur i) = <[i:=Mk (mover cur)]> (board cur))
    /\ mode s' = mode s
    /\ aiThinking s' = aiThinking s.
Proof.
  intros Hcur Hw Ho Hg1 Hg2.
  assert (Hk : (stepNumber s < length (history s))%nat)
    by by eapply lookup_lt_Some.
  assert (Hacc : accepts s cur i isAI).
  { split; [done|]. split; [done|].
    destruct isAI; [by left|]. right.
    destruct (mode s) eqn:Hm; [right|by left].
    destruct (xIsNext cur) eqn:Hx; [|by destruct Hg2].
    destruct (aiThinking s) eqn:Ha; [by destruct Hg1|done]. }
  destruct (handleSquareClick_cases s cur i isAI Hcur) as [[_ H]|[Hn _]];
    [|by destruct Hn].
  eexists. split; [exact H|]. split; [by apply moved_differs|]. simpl.
  assert (Hlen : length (take (S (stepNumber s)) (history s))
                 = S (stepNumber s)) by (rewrite length_take; lia).
  split; [done|]. split; [rewrite length_app, Hlen; simpl; lia|].
  assert (Hold : forall n, (n <= stepNumber s)%nat ->
            (take (S (stepNumber s)) (history s) ++ [next_entry cur i]) !! n
            = history s !! n).
  { intros n Hn. rewrite lookup_app_l by lia. apply lookup_take_lt. lia. }
  split; [done|]. split; [by rewrite Hold|]. split; [done|].
  split; [rewrite length_app, Hlen; simpl; lia|].
  split.
  { unfold current. simpl. rewrite lookup_app_r by lia.
    by rewrite Hlen, Nat.sub_diag. }
  split; [done|]. split; [apply get_array_set_eq|].
  split.
  { intros n Hn. simpl. by rewrite get_array_set_ne, get_spread. }
  split; [|done].
  intros Hl Hi. simpl. fold (place (board cur) i (mover cur)).
  rewrite place_in_range by (destruct Hl as [-> _]; lia).
  by rewrite legal_spread.
Qed.

Lemma handleSquareClick_truncates_and_appends_witness :
  let s := jumpTo three_moves 1 in
  let cur := {| board := <[0%nat:=Mk PLAYER_X]> getEmptyBoard;
                xIsNext := false |} in
  length (history s) = 4%nat
  /\ exists s',
       handleSquareClick s 4 false = Some s'
       /\ s' <> s
       /\ history s' = take 2 (history s) ++ [next_entry cur 4]
       /\ length (history s') = 3%nat
       /\ (forall n, (n <= 1)%nat -> history s' !! n = history s !! n)
       /\ history s' !! 1%nat = Some cur
       /\ stepNumber s' = 2%nat
       /\ stepNumber s' = (length (history s') - 1)%nat
       /\ current s' = Some (next_entry cur 4)
       /\ xIsNext (next_entry cur 4) = negb (xIsNext cur)
       /\ get (board (next_entry cur 4)) 4 = Mk (mover cur)
       /\ (forall n, n <> 4%nat ->
             get (board (next_entry cur 4)) n = get (board cur) n)
       /\ (legal_board (board cur) -> (4 < 9)%nat ->
             board (next_entry cur 4) = <[4%nat:=Mk (mover cur)]> (board cur))
       /\ mode s' = mode s
       /\ aiThinking s' = aiThinking s.
Proof.
  intros s cur. split; [reflexivity|].
  apply (handleSquareClick_truncates_and_appends s cur 4 false).
  - reflexivity.
  - reflexivity.
  - reflexivity.
  - intros (Hm & _). discriminate Hm.
  - intros (_ & Hm & _). discriminate Hm.
Defined.

(** The pending-flag guard of the source also tests the mode: on a
    session in two-player mode with the flag set, which no transition
    produces (see [reachable_inv]), a click that is not AI-tagged is
    accepted. *)
Lemma pending_flag_not_checked_in_two_player :
  let s := {| mode := MODE_TWO_PLAYER;
              history := [ {| board := getEmptyBoard; xIsNext := true |} ];
              stepNumber := 0;
              aiThinking := true |} in
  aiThinking s = true
  /\ handleSquareClick s 0 false
     = Some {| mode := MODE_TWO_PLAYER;
               history :=
                 [ {| board := getEmptyBoard; xIsNext := true |};
                   {| board := <[0%nat:=Mk PLAYER_X]> getEmptyBoard;
                      xIsNext := false |} ];
               stepNumber := 1;
               aiThinking := true |}
  /\ handleSquareClick s 0 false <> Some s.
Proof. split; [reflexivity|]. split; [reflexivity|discriminate]. Qed.

(** On any session, reachable or not, a click changes nothing when the
    game at the current step is over, when the target cell holds a mark,
    or when the click is not AI-tagged, the mode is single player, and
    either it is O's turn or the AI-pending flag is set. *)
Lemma handleSquareClick_noop
    (s : state) (cur : entry) (i : nat) (isAI : bool) :
  current s = Some cur ->
  calculateWinner (board cur) <> None
  \/ (exists m, get (board cur) i = Mk m)
  \/ (isAI = false /\ mode s = MODE_SINGLE_PLAYER /\ xIsNext cur = false)
  \/ (isAI = false /\ mode s = MODE_SINGLE_PLAYER /\ aiThinking s = true) ->
  handleSquareClick s i isAI = Some s.
Proof.
  intros Hcur Hcase.
  destruct (handleSquareClick_cases s cur i isAI Hcur)
    as [[(Hw & Ho & Hg) _]|[_ H]]; [exfalso|done].
  destruct Hcase as [Hc|[[m Hc]|[(-> & Hm & Hx)|(-> & Hm & Ha)]]].
  - done.
  - by rewrite Hc in Ho.
  - destruct Hg as [?|[?|[? ?]]]; congruence.
  - destruct Hg as [?|[?|[? ?]]]; congruence.
Qed.

(** C9. [switchMode] yields the new session of the given mode, whatever
    the session before: that mode, a single entry with the empty board
    and X to move, step 0, no AI move pending. *)
Theorem switchMode_is_newSession (s : state) (m : mode_t) :
  switchMode s m = newSession m
  /\ mode (switchMode s m) = m
  /\ history (switchMode s m)
     = [ {| board := getEmptyBoard; xIsNext := true |} ]
  /\ stepNumber (switchMode s m) = 0%nat
  /\ aiThinking (switchMode s m) = false.
Proof. by repeat split. Qed.

(** C10. The cell index is not range-checked: a click at an array index
    past the ninth cell on a board that is not over, with the turn guards
    passing, is accepted, and the appended board has the mover's mark at
    that index and more than nine slots. *)
Theorem handleSquareClick_out_of_range
    (s : state) (cur : entry) (i : nat) (isAI : bool) :
  current s = Some cur ->
  length (board cur) = 9%nat ->
  calculateWinner (board cur) = None ->
  (isAI = true \/ mode s = MODE_TWO_PLAYER
   \/ (xIsNext cur = true /\ aiThinking s = false)) ->
  (9 <= i)%nat ->
  Z.of_nat i < 4294967295 ->
  exists s' e,
    handleSquareClick s i isAI = Some s'
    /\ s' <> s
    /\ history s' = take (S (stepNumber s)) (history s) ++ [e]
    /\ current s' = Some e
    /\ board e !! i = Some (Mk (mover cur))
    /\ length (board e) = S i
    /\ length (board e) <> 9%nat.
Proof.
  intros Hcur Hlen Hw Hg Hi _.
  assert (Ho : truthy (get (board cur) i) = false).
  { unfold get. rewrite lookup_ge_None_2; [done|lia]. }
  destruct (handleSquareClick_cases s cur i isAI Hcur) as [[_ H]|[Hn _]];
    [|by destruct Hn].
  eexists _, (next_entry cur i). split; [exact H|].
  assert (Hk : (stepNumber s < length (history s))%nat)
    by by eapply lookup_lt_Some.
  split.
  { intros Heq. apply (f_equal stepNumber) in Heq. simpl in Heq. lia. }
  split; [done|]. split.
  { unfold current. simpl. rewrite lookup_app_r by (rewrite length_take; lia).
    rewrite length_take.
    by replace (S (stepNumber s) - S (stepNumber s) `min` length (history s))%nat
      with 0%nat by lia. }
  split; [apply array_set_lookup|].
  assert (Hl : length (board (next_entry cur i)) = S i).
  { simpl. apply array_set_length_ge. rewrite spread_length. lia. }
  split; [done|]. rewrite Hl. lia.
Qed.

Lemma handleSquareClick_out_of_range_witness :
  exists s' e,
    handleSquareClick initialState 12 false = Some s'
    /\ s' <> initialState
    /\ history s' = take 1 (history initialState) ++ [e]
    /\ current s' = Some e
    /\ board e !! 12%nat = Some (Mk PLAYER_X)
    /\ length (board e) = 13%nat
    /\ length (board e) <> 9%nat.
Proof.
  apply (handleSquareClick_out_of_range initialState
           {| board := getEmptyBoard; xIsNext := true |} 12 false).
  - reflexivity.
  - reflexivity.
  - reflexivity.
  - right. right. split; reflexivity.
  - lia.
  - reflexivity.
Defined.

(** ** Reachable sessions *)

Lemma handleSquareClick_inv s i isAI s' :
  session_inv s -> handleSquareClick s i isAI = Some s' -> session_inv s'.
Proof.
  intros [Hk Hf] Hclick.
  destruct (lookup_lt_is_Some_2 _ _ Hk) as [cur Hcur].
  destruct (handleSquareClick_cases s cur i isAI Hcur) as [[_ H]|[_ H]];
    rewrite H in Hclick; injection Hclick as <-; [|done].
  split; [|done]. cbn [history stepNumber].
  rewrite length_app, length_take. cbn [length]. lia.
Qed.

Lemma step_inv s s' : step s s' -> session_inv s -> session_inv s'.
Proof.
  intros Hstep Hinv. destruct Hstep as
    [s i isAI s' Hclick | s n Hn | s | s m | s s' Heff | s cur s' Hcur Hturn Htimer].
  - by eapply handleSquareClick_inv.
  - destruct Hinv as [_ Hf]. by split.
  - split; [simpl; lia|done].
  - split; [simpl; lia|done].
  - unfold aiEffect in Heff. destruct (current s) as [cur|]; [|done].
    destruct (aiTurn s cur) eqn:Hturn; injection Heff as <-; [|done].
    split; [apply Hinv|]. intros _. simpl.
    unfold aiTurn in Hturn.
    apply andb_true_iff in Hturn as [Hturn _].
    apply andb_true_iff in Hturn as [Hm _].
    by apply bool_decide_eq_true in Hm.
  - unfold aiTimer in Htimer. rewrite Hcur in Htimer.
    destruct (getBestAIMove _ _ _) as [best|]; [|done].
    destruct (idx best) as [| |i].
    + injection Htimer as <-. split; [apply Hinv|done].
    + injection Htimer as <-. split; [apply Hinv|done].
    + destruct (negb (truthy (get (board cur) i))).
      * destruct (handleSquareClick s i true) as [s1|] eqn:Hclick; [|done].
        injection Htimer as <-.
        split; [|done]. by apply (handleSquareClick_inv s i true s1).
      * injection Htimer as <-. split; [apply Hinv|done].
Qed.

Lemma reachable_inv s : reachable s -> session_inv s.
Proof.
  unfold reachable. intros Hr.
  eapply (rtc_ind_r (fun s => session_inv s)); [| |exact Hr].
  - split; [simpl; lia|done].
  - intros s1 s2 _ Hstep IH. by eapply step_inv.
Qed.

(** On reachable sessions the pending flag implies single player mode,
    so there a click that is not AI-tagged is a no-op whenever the flag is
    set. *)
Lemma pending_click_rejected_when_reachable s cur i :
  reachable s -> current s = Some cur -> aiThinking s = true ->
  handleSquareClick s i false = Some s.
Proof.
  intros Hr Hcur Ha. destruct (reachable_inv s Hr) as [_ Hf].
  destruct (handleSquareClick_cases s cur i false Hcur)
    as [[(_ & _ & Hg) _]|[_ H]]; [exfalso|done].
  specialize (Hf Ha). destruct Hg as [?|[?|[? ?]]]; congruence.
Qed.

(** C7. In every reachable session a click changes nothing when the
    game at the current step is over, when the target cell holds a mark,
    when the click is not AI-tagged and the mode is single player and it
    is O's turn, or when the click is not AI-tagged and an AI move is
    pending: history, current step, mode and pending flag stay as they
    are. *)
Theorem handleSquareClick_noop_reachable
    (s : state) (cur : entry) (i : nat) (isAI : bool) :
  reachable s ->
  current s = Some cur ->
  calculateWinner (board cur) <> None
  \/ (exists m, get (board cur) i = Mk m)
  \/ (isAI = false /\ mode s = MODE_SINGLE_PLAYER /\ xIsNext cur = false)
  \/ (isAI = false /\ aiThinking s = true) ->
  handleSquareClick s i isAI = Some s.
Proof.
  intros Hr Hcur Hcase. destruct (reachable_inv s Hr) as [_ Hf].
  destruct (handleSquareClick_cases s cur i isAI Hcur)
    as [[(Hw & Ho & Hg) _]|[_ H]]; [exfalso|done].
  destruct Hcase as [Hc|[[m Hc]|[(-> & Hm & Hx)|(-> & Ha)]]].
  - done.
  - by rewrite Hc in Ho.
  - destruct Hg as [?|[?|[? ?]]]; congruence.
  - specialize (Hf Ha). destruct Hg as [?|[?|[? ?]]]; congruence.
Qed.

Lemma handleSquareClick_noop_reachable_witness :
  let cur := next_entry initialEntry 0 in
  let s := {| mode := MODE_SINGLE_PLAYER;
              history := [initialEntry; cur];
              stepNumber := 1; aiThinking := true |} in
  reachable s
  /\ aiThinking s = true
  /\ handleSquareClick s 4 false = Some s.
Proof.
  intros cur s.
  assert (Hr : reachable s).
  { unfold reachable.
    eapply rtc_l; [apply (step_click initialState 0 false); reflexivity|].
    eapply rtc_l; [apply step_effect; reflexivity|].
    apply rtc_refl. }
  split; [exact Hr|]. split; [reflexivity|].
  apply (handleSquareClick_noop_reachable s cur 4 false Hr).
  - reflexivity.
  - right. right. right. split; reflexivity.
Defined.



(** ** More on the rules engine *)

Lemma first_winning_line_inv (bd : Board) ls :
  match first_winning_line bd ls with
  | Some r =>
      exists m pre l post,
        r = {| winner := WMark m; line := Some l |}
        /\ ls = pre ++ l :: post
        /\ holds_line bd l m
        /\ (forall l', l' ∈ pre -> ~ completed bd l')
  | None => forall l, l ∈ ls -> ~ completed bd l
  end.
Proof.
  induction ls as [|[[a b] c] rest IH]; simpl.
  - by intros l ?%elem_of_nil.
  - destruct (_ && _ && _) eqn:Ht.
    + apply line_test in Ht as (m & Ha & Hb & Hc). rewrite Ha.
      exists m, [], (a, b, c), rest. split; [done|]. split; [done|].
      split; [done|]. by intros l' ?%elem_of_nil.
    + assert (Hn : ~ completed bd (a, b, c)).
      { intros Hc%line_test. congruence. }
      destruct (first_winning_line bd rest) as [r|].
      * destruct IH as (m & pre & l & post & -> & -> & Hl & Hpre).
        exists m, ((a, b, c) :: pre), l, post. split; [done|].
        split; [done|]. split; [done|].
        intros l' [->|Hl']%elem_of_cons; [done|by apply Hpre].
      * intros l [->|Hl]%elem_of_cons; [done|by apply IH].
Qed.

Lemma every_filled_inv (bd : Board) :
  if every_filled bd
  then forall c, c ∈ bd -> c = Hole \/ exists m, c = Mk m
  else exists i, candidate bd i.
Proof.
  unfold every_filled, candidate. induction bd as [|c bd IH]; simpl.
  - by intros c ?%elem_of_nil.
  - destruct c; simpl.
    + destruct (forallb _ bd).
      * intros c [->|Hc]%elem_of_cons; [by left|by apply IH].
      * destruct IH as (i & c & Hi & Hc). by exists (S i), c.
    + exists 0%nat, Undef. by split.
    + exists 0%nat, Null. by split.
    + destruct (forallb _ bd).
      * intros c [->|Hc]%elem_of_cons; [right; by eexists|by apply IH].
      * destruct IH as (i & c & Hi & Hc). by exists (S i), c.
Qed.

Lemma calculateWinner_cases (bd : Board) :
  match calculateWinner bd with
  | Some r =>
      (exists m pre l post,
          r = {| winner := WMark m; line := Some l |}
          /\ lines = pre ++ l :: post
          /\ holds_line bd l m
          /\ (forall l', l' ∈ pre -> ~ completed bd l'))
      \/ (r = {| winner := WDraw; line := None |}
          /\ (forall l, l ∈ lines -> ~ completed bd l)
          /\ (forall c, c ∈ bd -> c = Hole \/ exists m, c = Mk m))
  | None =>
      (forall l, l ∈ lines -> ~ completed bd l)
      /\ exists i, candidate bd i
  end.
Proof.
  unfold calculateWinner.
  pose proof (first_winning_line_inv bd lines) as Hl.
  destruct (first_winning_line bd lines) as [r|]; [by left|].
  pose proof (every_filled_inv bd) as Hf.
  destruct (every_filled bd); [right|]; by split.
Qed.

(** What each result of [calculateWinner] tells about the board, for
    arrays of any length, sparse ones included: a win names the first
    completed line; a draw means no line is completed and every slot that
    exists holds a mark; [null] means no line is completed and some slot
    holds [null] or [undefined]. *)
Theorem calculateWinner_inv (bd : Board) :
  match calculateWinner bd with
  | Some r =>
      (exists m pre l post,
          r = {| winner := WMark m; line := Some l |}
          /\ lines = pre ++ l :: post
          /\ holds_line bd l m
          /\ (forall l', l' ∈ pre -> ~ completed bd l'))
      \/ (r = {| winner := WDraw; line := None |}
          /\ (forall l, l ∈ lines -> ~ completed bd l)
          /\ (forall c, c ∈ bd -> c = Hole \/ exists m, c = Mk m))
  | None =>
      (forall l, l ∈ lines -> ~ completed bd l)
      /\ exists i, candidate bd i
  end.
Proof. exact (calculateWinner_cases bd). Qed.

Lemma lines_in_range : Forall (fun l : Line =>
  let '(a, b, c) := l in (a < 9 /\ b < 9 /\ c < 9)%nat) lines.
Proof. repeat constructor. Qed.

Lemma first_winning_line_ext (bd bd' : Board) ls :
  Forall (fun l : Line => let '(a, b, c) := l in (a < 9 /\ b < 9 /\ c < 9)%nat) ls ->
  (forall n, (n < 9)%nat -> get bd n = get bd' n) ->
  first_winning_line bd ls = first_winning_line bd' ls.
Proof.
  intros Hls Heq. induction Hls as [|[[a b] c] rest (Ha & Hb & Hc) _ IH]; [done|].
  simpl. by rewrite !(Heq a), !(Heq b), !(Heq c), IH.
Qed.

(** Only the first nine slots decide a win: two arrays that read alike
    at the indices 0 to 8 have the same winning line, whatever else they
    hold and however long they are. *)
Theorem calculateWinner_win_first_nine (bd bd' : Board) (m : mark) (l : Line) :
  (forall n, (n < 9)%nat -> get bd n = get bd' n) ->
  calculateWinner bd = Some {| winner := WMark m; line := Some l |}
  <-> calculateWinner bd' = Some {| winner := WMark m; line := Some l |}.
Proof.
  intros Heq. unfold calculateWinner.
  rewrite (first_winning_line_ext bd bd' lines lines_in_range Heq).
  destruct (first_winning_line bd' lines); [done|].
  by destruct (every_filled bd), (every_filled bd').
Qed.

Lemma calculateWinner_win_first_nine_witness :
  calculateWinner
    (array_set [Mk PLAYER_X; Mk PLAYER_X; Mk PLAYER_X;
                Null; Null; Null; Null; Null; Null] 11 (Mk PLAYER_O))
  = Some {| winner := WMark PLAYER_X; line := Some (0, 1, 2)%nat |}
  <-> calculateWinner
        [Mk PLAYER_X; Mk PLAYER_X; Mk PLAYER_X;
         Null; Null; Null; Null; Null; Null]
      = Some {| winner := WMark PLAYER_X; line := Some (0, 1, 2)%nat |}.
Proof.
  apply calculateWinner_win_first_nine.
  intros n Hn. apply get_array_set_ne. lia.
Defined.

Lemma move_winner (bd : Board) (i : nat) (p : mark) (r : winnerObj) :
  calculateWinner bd = None ->
  calculateWinner (place bd i p) = Some r ->
  winner r = WDraw
  \/ (winner r = WMark p
      /\ exists a b c, line r = Some (a, b, c) /\ (i = a \/ i = b \/ i = c)).
Proof.
  intros Hbefore Hafter.
  pose proof (calculateWinner_cases bd) as Hb. rewrite Hbefore in Hb.
  destruct Hb as [Hno _].
  pose proof (calculateWinner_cases (place bd i p)) as Ha. rewrite Hafter in Ha.
  destruct Ha as [(m & pre & [[a b] c] & post & -> & Hl & Hh & _)|[-> _]];
    [right|by left].
  assert (Hin : (a, b, c) ∈ lines)
    by (rewrite Hl; apply elem_of_app; right; left).
  assert (Hget : forall n, n <> i -> get (place bd i p) n = get bd n).
  { intros n Hn. unfold place. by rewrite get_array_set_ne, get_spread. }
  destruct Hh as (Ha & Hb & Hc). simpl.
  destruct (decide (i = a)) as [->|Hia].
  { unfold place in Ha. rewrite get_array_set_eq in Ha.
    injection Ha as ->. split; [done|]. exists a, b, c. auto. }
  destruct (decide (i = b)) as [->|Hib].
  { unfold place in Hb. rewrite get_array_set_eq in Hb.
    injection Hb as ->. split; [done|]. exists a, b, c. auto. }
  destruct (decide (i = c)) as [->|Hic].
  { unfold place in Hc. rewrite get_array_set_eq in Hc.
    injection Hc as ->. split; [done|]. exists a, b, c. auto. }
  exfalso. apply (Hno (a, b, c) Hin). exists m.
  rewrite Hget in Ha, Hb, Hc by done. by repeat split.
Qed.

(** A move on a board that is not over can only make the mover win, and
    then along a line through the cell just marked. *)
Theorem calculateWinner_after_move (bd : Board) (i : nat) (p : mark) (r : winnerObj) :
  calculateWinner bd = None ->
  calculateWinner (place bd i p) = Some r ->
  winner r = WDraw
  \/ (winner r = WMark p
      /\ exists a b c, line r = Some (a, b, c) /\ (i = a \/ i = b \/ i = c)).
Proof. apply move_winner. Qed.

Lemma calculateWinner_after_move_witness :
  WMark PLAYER_O = WDraw
  \/ (WMark PLAYER_O = WMark PLAYER_O
      /\ exists a b c, Some (6, 7, 8)%nat = Some (a, b, c)
                       /\ (8 = a \/ 8 = b \/ 8 = c)%nat).
Proof.
  apply (calculateWinner_after_move fork_board 8 PLAYER_O
           {| winner := WMark PLAYER_O; line := Some (6, 7, 8)%nat |}).
  - reflexivity.
  - reflexivity.
Defined.

(** ** More on the search *)

(** The recursion ends on every array, sparse or not and of any length:
    each call fills a slot that held no mark, so a depth above the number
    of such slots is never exhausted, and any such depth gives the result
    of [getBestAIMove]. *)
Theorem getBestAIMove_terminates (bd : Board) (p q : mark) :
  exists r,
    getBestAIMove bd p q = Some r
    /\ forall d, (unmarked bd < d)%nat -> getBestAIMove_depth d bd p q = Some r.
Proof.
  exists (search_body bd p q). split; [apply getBestAIMove_unfold|].
  intros d Hd. by apply (depth_sufficient (unmarked bd)).
Qed.

(** The score is always one of [-1], [0], [1]. *)
Theorem getBestAIMove_score_range (bd : Board) (p q : mark) (r : result) :
  getBestAIMove bd p q = Some r ->
  score r = -1 \/ score r = 0 \/ score r = 1.
Proof.
  rewrite getBestAIMove_unfold. intros [= <-].
  pose proof (search_body_bound (unmarked bd) bd p q (le_n _)). lia.
Qed.

Lemma getBestAIMove_score_range_witness :
  score {| idx := Idx 4; score := 1 |} = -1
  \/ score {| idx := Idx 4; score := 1 |} = 0
  \/ score {| idx := Idx 4; score := 1 |} = 1.
Proof.
  apply (getBestAIMove_score_range fork_board PLAYER_O PLAYER_X).
  vm_compute. reflexivity.
Defined.

Lemma candidate_in_range (bd : Board) j :
  candidate bd j -> (j < length bd)%nat /\ truthy (get bd j) = false.
Proof.
  intros (c & Hc & Hn). split; [by eapply lookup_lt_Some|].
  unfold get. rewrite Hc. by destruct c.
Qed.

(** With two different marks the result has no [idx] exactly when the
    game is over; otherwise [idx] is the index of a slot of the array that
    holds [null] or [undefined].  The final [{ idx: null, score: 0 }] of
    the source is never returned. *)
Theorem getBestAIMove_index (bd : Board) (p q : mark) (r : result) :
  p <> q ->
  getBestAIMove bd p q = Some r ->
  match idx r with
  | NoIdx => calculateWinner bd <> None
  | NullIdx => False
  | Idx j =>
      calculateWinner bd = None /\ candidate bd j
      /\ (j < length bd)%nat /\ truthy (get bd j) = false
  end.
Proof.
  intros Hpq. rewrite getBestAIMove_unfold. intros [= <-].
  pose proof (calculateWinner_cases bd) as Hinv.
  destruct (calculateWinner bd) as [w|] eqn:Hw.
  - unfold search_body, terminal_score. rewrite Hw.
    destruct (winner w) as [m|] eqn:Hm.
    + destruct (decide (m = p)) as [->|Hmp].
      * by rewrite bool_decide_eq_true_2.
      * assert (m = q) as -> by (destruct m, p, q; done).
        rewrite bool_decide_eq_false_2 by congruence.
        by rewrite bool_decide_eq_true_2.
    + rewrite !bool_decide_eq_false_2 by done.
      by rewrite bool_decide_eq_true_2.
  - destruct Hinv as [_ Hex].
    destruct (search_move_spec bd p q) as (j & -> & _ & Hj & _);
      [by rewrite Hw|done|].
    simpl. split; [done|]. split; [done|]. by apply candidate_in_range.
Qed.

Lemma getBestAIMove_index_witness :
  calculateWinner fork_board = None /\ candidate fork_board 4
  /\ (4 < length fork_board)%nat /\ truthy (get fork_board 4) = false.
Proof.
  apply (getBestAIMove_index fork_board PLAYER_O PLAYER_X
           {| idx := Idx 4; score := 1 |}).
  - discriminate.
  - vm_compute. reflexivity.
Defined.

Section Swap.

Lemma swap_cell_truthy c : truthy (swap_cell c) = truthy c.
Proof. by destruct c. Qed.

Lemma swap_cell_loose_null c : loose_null (swap_cell c) = loose_null c.
Proof. by destruct c. Qed.

Lemma swap_cell_strict_eq c d :
  strict_eq (swap_cell c) (swap_cell d) = strict_eq c d.
Proof. destruct c as [| | |[]], d as [| | |[]]; done. Qed.

Lemma get_swap (bd : Board) i : get (swap_board bd) i = swap_cell (get bd i).
Proof.
  unfold get, swap_board. rewrite list_lookup_fmap.
  by destruct (bd !! i) as [[]|].
Qed.

Lemma first_winning_line_swap (bd : Board) ls :
  first_winning_line (swap_board bd) ls
  = option_map swap_winnerObj (first_winning_line bd ls).
Proof.
  induction ls as [|[[a b] c] rest IH]; [done|]. simpl.
  rewrite !get_swap, swap_cell_truthy, !swap_cell_strict_eq, IH.
  destruct (_ && _ && _); [|done]. by destruct (get bd a).
Qed.

Lemma every_filled_swap (bd : Board) :
  every_filled (swap_board bd) = every_filled bd.
Proof.
  unfold every_filled, swap_board. induction bd as [|c bd IH]; [done|].
  simpl. rewrite IH. by destruct c.
Qed.

Lemma calculateWinner_swap (bd : Board) :
  calculateWinner (swap_board bd)
  = option_map swap_winnerObj (calculateWinner bd).
Proof.
  unfold calculateWinner. rewrite first_winning_line_swap, every_filled_swap.
  destruct (first_winning_line bd lines); [done|].
  by destruct (every_filled bd).
Qed.

Lemma terminal_score_swap res p q :
  terminal_score (option_map swap_winnerObj res) (opponent p) (opponent q)
  = terminal_score res p q.
Proof.
  destruct res as [[[[]|] l]|]; destruct p, q; done.
Qed.

Lemma candidates_from_swap i cells :
  candidates_from i (map swap_cell cells) = candidates_from i cells.
Proof.
  revert i. induction cells as [|c cells IH]; intros i; [done|].
  simpl. by rewrite swap_cell_loose_null, IH.
Qed.

Lemma spread_swap (bd : Board) :
  spread (swap_board bd) = swap_board (spread bd).
Proof.
  unfold spread, swap_board. rewrite !map_map. apply map_ext.
  by intros [].
Qed.

Lemma array_set_swap (bd : Board) i v :
  array_set (swap_board bd) i (swap_cell v) = swap_board (array_set bd i v).
Proof.
  unfold array_set, swap_board. rewrite length_map.
  destruct (i <? length bd)%nat.
  - symmetry. apply (list_fmap_insert swap_cell).
  - rewrite !map_app. simpl. f_equal. f_equal.
    induction (i - length bd)%nat as [|k IH]; [done|]. simpl. by f_equal.
Qed.

Lemma place_swap (bd : Board) j p :
  place (swap_board bd) j (opponent p) = swap_board (place bd j p).
Proof.
  unfold place. rewrite spread_swap.
  apply (array_set_swap (spread bd) j (Mk p)).
Qed.

Lemma unmarked_swap (bd : Board) : unmarked (swap_board bd) = unmarked bd.
Proof.
  unfold unmarked, swap_board. induction bd as [|c bd IH]; [done|].
  simpl. rewrite !filter_cons, swap_cell_truthy.
  case_decide; simpl; by rewrite IH.
Qed.

Lemma search_body_swap n : forall (bd : Board) p q,
  (unmarked bd <= n)%nat ->
  search_body (swap_board bd) (opponent p) (opponent q) = search_body bd p q.
Proof.
  induction n as [|n IH]; intros bd p q Hn; unfold search_body;
    rewrite calculateWinner_swap, terminal_score_swap;
    (destruct (terminal_score _ p q); [done|]);
    (assert (Hm : moves_of (swap_board bd) (opponent p) (opponent q)
                  = moves_of bd p q); [|by rewrite Hm]);
    unfold moves_of, candidates, swap_board at 2;
    rewrite candidates_from_swap; apply map_ext_in; intros j Hj;
    apply list_elem_of_In, elem_of_candidates in Hj;
    pose proof (place_unmarked bd j p Hj) as Hu; [lia|].
  rewrite place_swap, !search_score_unfold, IH by lia. done.
Qed.

End Swap.

(** The search does not favour a mark: exchanging X and O on the board
    and in the two player arguments leaves the result, index and score,
    unchanged. *)
Theorem getBestAIMove_swap (bd : Board) (p q : mark) :
  getBestAIMove (swap_board bd) (opponent p) (opponent q)
  = getBestAIMove bd p q.
Proof.
  rewrite !getBestAIMove_unfold. f_equal.
  by apply (search_body_swap (unmarked bd)).
Qed.

(** ** More on clicks *)

(** The full decision of [handleSquareClick]: a click changes the
    session exactly when the game at the current step is not over, the
    target slot holds no mark, and the click is AI-tagged, or the mode is
    two player, or it is X's turn with no AI move pending. *)
Theorem handleSquareClick_accepted_iff
    (s : state) (cur : entry) (i : nat) (isAI : bool) :
  current s = Some cur ->
  (exists s', handleSquareClick s i isAI = Some s' /\ s' <> s)
  <-> (calculateWinner (board cur) = None
       /\ truthy (get (board cur) i) = false
       /\ (isAI = true \/ mode s = MODE_TWO_PLAYER
           \/ (xIsNext cur = true /\ aiThinking s = false))).
Proof.
  intros Hcur.
  assert (Hk : (stepNumber s < length (history s))%nat)
    by by eapply lookup_lt_Some.
  fold (accepts s cur i isAI).
  destruct (handleSquareClick_cases s cur i isAI Hcur) as [[Ha H]|[Hn H]];
    rewrite H; split; try done.
  - intros _. eexists. split; [done|]. by apply moved_differs.
  - by intros (s' & [= <-] & Hne).
Qed.

Lemma handleSquareClick_accepted_iff_witness :
  let cur := {| board := getEmptyBoard; xIsNext := true |} in
  (exists s', handleSquareClick initialState 4 false = Some s'
              /\ s' <> initialState)
  <-> (calculateWinner (board cur) = None
       /\ truthy (get (board cur) 4) = false
       /\ (false = true \/ mode initialState = MODE_TWO_PLAYER
           \/ (xIsNext cur = true /\ aiThinking initialState = false))).
Proof.
  intros cur.
  apply (handleSquareClick_accepted_iff initialState cur 4 false).
  reflexivity.
Defined.

(** The comment of the source, "prevent humans from playing O in AI
    mode": in single player mode a click that is not AI-tagged and is
    accepted is made on X's turn with no AI move pending, and writes X. *)
Theorem human_click_writes_X
    (s s' : state) (cur : entry) (i : nat) :
  current s = Some cur ->
  mode s = MODE_SINGLE_PLAYER ->
  handleSquareClick s i false = Some s' ->
  s' <> s ->
  xIsNext cur = true
  /\ aiThinking s = false
  /\ current s' = Some (next_entry cur i)
  /\ board (next_entry cur i) !! i = Some (Mk PLAYER_X)
  /\ xIsNext (next_entry cur i) = false.
Proof.
  intros Hcur Hm Hclick Hne.
  assert (Hk : (stepNumber s < length (history s))%nat)
    by by eapply lookup_lt_Some.
  destruct (handleSquareClick_cases s cur i false Hcur)
    as [[(_ & _ & Hg) H]|[_ H]];
    rewrite H in Hclick; injection Hclick as <-; [|done].
  destruct Hg as [?|[?|[Hx Ha]]]; try congruence.
  split; [done|]. split; [done|]. split.
  { unfold current. simpl. rewrite lookup_app_r by (rewrite length_take; lia).
    rewrite length_take.
    by replace (S (stepNumber s) - S (stepNumber s) `min` length (history s))%nat
      with 0%nat by lia. }
  split.
  { simpl. rewrite array_set_lookup. unfold mover. by rewrite Hx. }
  simpl. by rewrite Hx.
Qed.

Lemma human_click_writes_X_witness :
  let cur := {| board := getEmptyBoard; xIsNext := true |} in
  xIsNext cur = true
  /\ aiThinking initialState = false
  /\ current {| mode := MODE_SINGLE_PLAYER;
                history := [cur; next_entry cur 4];
                stepNumber := 1;
                aiThinking := false |} = Some (next_entry cur 4)
  /\ board (next_entry cur 4) !! 4%nat = Some (Mk PLAYER_X)
  /\ xIsNext (next_entry cur 4) = false.
Proof.
  intros cur.
  apply (human_click_writes_X initialState _ cur 4).
  - reflexivity.
  - reflexivity.
  - reflexivity.
  - discriminate.
Defined.

(** An accepted click on a slot of the array adds exactly one mark and
    removes none: the slot held no mark, and the board of the session's
    new current entry has the mover's mark there, every slot other than
    the clicked one as it was (so every earlier mark still in place), the
    same length, and one slot fewer without a mark. *)
Theorem accepted_click_adds_one_mark
    (s s' : state) (cur : entry) (i : nat) (isAI : bool) :
  current s = Some cur ->
  handleSquareClick s i isAI = Some s' ->
  s' <> s ->
  (i < length (board cur))%nat ->
  exists e',
    current s' = Some e'
    /\ history s' !! S (stepNumber s) = Some e'
    /\ truthy (get (board cur) i) = false
    /\ get (board e') i = Mk (mover cur)
    /\ (forall n, n <> i -> get (board e') n = get (board cur) n)
    /\ (forall n m, get (board cur) n = Mk m -> get (board e') n = Mk m)
    /\ length (board e') = length (board cur)
    /\ S (unmarked (board e')) = unmarked (board cur).
Proof.
  intros Hcur Hclick Hne Hi.
  assert (Hk : (stepNumber s < length (history s))%nat)
    by by eapply lookup_lt_Some.
  destruct (handleSquareClick_cases s cur i isAI Hcur)
    as [[(_ & Ho & _) H]|[_ H]];
    rewrite H in Hclick; injection Hclick as <-; [|done].
  exists (next_entry cur i).
  assert (Hlast : (take (S (stepNumber s)) (history s) ++ [next_entry cur i])
                  !! S (stepNumber s) = Some (next_entry cur i)).
  { rewrite lookup_app_r by (rewrite length_take; lia).
    rewrite length_take.
    by replace (S (stepNumber s) - S (stepNumber s) `min` length (history s))%nat
      with 0%nat by lia. }
  split; [exact Hlast|]. split; [exact Hlast|]. split; [done|].
  assert (Hother : forall n, n <> i ->
            get (board (next_entry cur i)) n = get (board cur) n).
  { intros n Hn. simpl. by rewrite get_array_set_ne, get_spread. }
  split; [apply get_array_set_eq|]. split; [done|]. split.
  { intros n m Hn.
    destruct (decide (n = i)) as [->|Hni]; [by rewrite Hn in Ho|].
    by rewrite Hother. }
  destruct (lookup_lt_is_Some_2 _ _ Hi) as [c Hc].
  assert (Hcand : truthy c = false).
  { unfold get in Ho. rewrite Hc in Ho. by destruct c. }
  simpl. fold (place (board cur) i (mover cur)).
  rewrite place_in_range by done. split.
  - by rewrite length_insert, spread_length.
  - rewrite <- (unmarked_spread (board cur)).
    eapply unmarked_insert; [by apply spread_lookup|]. by destruct c.
Qed.

Lemma accepted_click_adds_one_mark_witness :
  let s := jumpTo three_moves 1 in
  let cur := {| board := <[0%nat:=Mk PLAYER_X]> getEmptyBoard;
                xIsNext := false |} in
  let s' := {| mode := MODE_TWO_PLAYER;
               history := take 2 (history three_moves) ++ [next_entry cur 4];
               stepNumber := 2;
               aiThinking := false |} in
  exists e',
    current s' = Some e'
    /\ history s' !! 2%nat = Some e'
    /\ truthy (get (board cur) 4) = false
    /\ get (board e') 4 = Mk PLAYER_O
    /\ (forall n, n <> 4%nat -> get (board e') n = get (board cur) n)
    /\ (forall n m, get (board cur) n = Mk m -> get (board e') n = Mk m)
    /\ length (board e') = length (board cur)
    /\ S (unmarked (board e')) = unmarked (board cur).
Proof.
  intros s cur s'.
  apply (accepted_click_adds_one_mark s s' cur 4 false).
  - reflexivity.
  - reflexivity.
  - discriminate.
  - simpl. lia.
Defined.

(** After an accepted click the same slot cannot be clicked again: any
    further click on it, AI-tagged or not, leaves the session as it is. *)
Theorem second_click_same_cell_noop
    (s s' : state) (cur : entry) (i : nat) (isAI isAI' : bool) :
  current s = Some cur ->
  handleSquareClick s i isAI = Some s' ->
  s' <> s ->
  handleSquareClick s' i isAI' = Some s'.
Proof.
  intros Hcur Hclick Hne.
  assert (Hk : (stepNumber s < length (history s))%nat)
    by by eapply lookup_lt_Some.
  destruct (handleSquareClick_cases s cur i isAI Hcur) as [[_ H]|[_ H]];
    rewrite H in Hclick; injection Hclick as <-; [|done].
  set (s1 := {| mode := mode s;
                history := take (S (stepNumber s)) (history s)
                             ++ [next_entry cur i];
                stepNumber := S (stepNumber s);
                aiThinking := aiThinking s |}).
  assert (Hcur1 : current s1 = Some (next_entry cur i)).
  { unfold current, s1. simpl.
    rewrite lookup_app_r by (rewrite length_take; lia).
    rewrite length_take.
    by replace (S (stepNumber s) - S (stepNumber s) `min` length (history s))%nat
      with 0%nat by lia. }
  destruct (handleSquareClick_cases s1 _ i isAI' Hcur1)
    as [[(_ & Ho & _) _]|[_ H1]]; [|done].
  simpl in Ho. by rewrite get_array_set_eq in Ho.
Qed.

Lemma second_click_same_cell_noop_witness :
  let cur := {| board := getEmptyBoard; xIsNext := true |} in
  let s' := {| mode := MODE_SINGLE_PLAYER;
               history := [cur; next_entry cur 4];
               stepNumber := 1;
               aiThinking := false |} in
  handleSquareClick s' 4 true = Some s'.
Proof.
  intros cur s'.
  apply (second_click_same_cell_noop initialState s' cur 4 false true).
  - reflexivity.
  - reflexivity.
  - discriminate.
Defined.

(** Undo and redo: after an accepted click from step [k], jumping back
    to [k] shows the old entry again with the new entry still in the
    history, jumping forward restores the session, and so does replaying
    the same click from step [k]. *)
Theorem click_undo_redo
    (s s' : state) (cur : entry) (i : nat) (isAI : bool) :
  current s = Some cur ->
  handleSquareClick s i isAI = Some s' ->
  s' <> s ->
  current (jumpTo s' (stepNumber s)) = Some cur
  /\ history (jumpTo s' (stepNumber s)) = history s'
  /\ jumpTo (jumpTo s' (stepNumber s)) (stepNumber s') = s'
  /\ handleSquareClick (jumpTo s' (stepNumber s)) i isAI = Some s'.
Proof.
  intros Hcur Hclick Hne.
  assert (Hk : (stepNumber s < length (history s))%nat)
    by by eapply lookup_lt_Some.
  destruct (handleSquareClick_cases s cur i isAI Hcur) as [[Hacc H]|[_ H]];
    rewrite H in Hclick; injection Hclick as <-; [|done].
  set (h' := take (S (stepNumber s)) (history s) ++ [next_entry cur i]).
  assert (Hback : h' !! stepNumber s = Some cur).
  { unfold h'. rewrite lookup_app_l by (rewrite length_take; lia).
    rewrite lookup_take_lt by lia. exact Hcur. }
  split; [exact Hback|]. split; [done|]. split; [done|].
  set (s1 := jumpTo _ _).
  destruct (handleSquareClick_cases s1 cur i isAI Hback) as [[_ H1]|[Hn _]].
  - rewrite H1. unfold s1, h'. simpl. do 2 f_equal.
    rewrite take_app_le by (rewrite length_take; lia).
    rewrite take_take. f_equal. f_equal. lia.
  - destruct Hn. exact Hacc.
Qed.

Lemma click_undo_redo_witness :
  let cur := {| board := getEmptyBoard; xIsNext := true |} in
  let s' := {| mode := MODE_SINGLE_PLAYER;
               history := [cur; next_entry cur 4];
               stepNumber := 1;
               aiThinking := false |} in
  current (jumpTo s' 0) = Some cur
  /\ history (jumpTo s' 0) = history s'
  /\ jumpTo (jumpTo s' 0) 1 = s'
  /\ handleSquareClick (jumpTo s' 0) 4 false = Some s'.
Proof.
  intros cur s'.
  apply (click_undo_redo initialState s' cur 4 false).
  - reflexivity.
  - reflexivity.
  - discriminate.
Defined.

(** ** The AI's move *)

Lemma aiTurn_inv s cur :
  aiTurn s cur = true ->
  mode s = MODE_SINGLE_PLAYER
  /\ calculateWinner (board cur) = None
  /\ xIsNext cur = false.
Proof.
  unfold aiTurn, winner_of. intros H.
  apply andb_true_iff in H as [H Hx]. apply andb_true_iff in H as [Hm Hw].
  apply bool_decide_eq_true in Hm. apply negb_true_iff in Hx.
  apply negb_true_iff, bool_decide_eq_false in Hw.
  split; [done|]. split; [|done].
  destruct (calculateWinner (board cur)); [|done].
  destruct Hw. by eexists.
Qed.

Lemma aiTimer_appends (s : state) (cur : entry) :
  current s = Some cur ->
  aiTurn s cur = true ->
  exists j sc,
    getBestAIMove (board cur) PLAYER_O PLAYER_X
    = Some {| idx := Idx j; score := sc |}
    /\ candidate (board cur) j
    /\ aiTimer s
       = Some {| mode := mode s;
                 history := take (S (stepNumber s)) (history s)
                   ++ [ {| board := place (board cur) j PLAYER_O;
                           xIsNext := true |} ];
                 stepNumber := S (stepNumber s);
                 aiThinking := false |}.
Proof.
  intros Hcur Hturn. destruct (aiTurn_inv s cur Hturn) as (Hm & Hw & Hx).
  pose proof (calculateWinner_cases (board cur)) as Hinv. rewrite Hw in Hinv.
  destruct Hinv as [_ Hex].
  destruct (search_move_spec (board cur) PLAYER_O PLAYER_X)
    as (j & Hb & _ & Hj & _); [by rewrite Hw|done|].
  exists j, (- search_score (place (board cur) j PLAYER_O) PLAYER_X PLAYER_O).
  rewrite getBestAIMove_unfold, Hb. split; [done|]. split; [done|].
  unfold aiTimer. rewrite Hcur, getBestAIMove_unfold, Hb. cbn [idx].
  destruct (candidate_in_range _ j Hj) as [_ Ho]. rewrite Ho. cbn [negb].
  destruct (handleSquareClick_cases s cur j true Hcur) as [[_ H]|[Hn _]].
  - rewrite H. unfold next_entry, mover, place. rewrite Hx. done.
  - destruct Hn. split; [done|]. split; [done|]. by left.
Qed.

(** Whenever the AI effect's condition holds (single player, game not
    over, O to move) the timer callback does move: the search returns the
    index of a slot holding no mark, the AI-tagged click on it is
    accepted, one entry with O written there and X to move is appended
    and becomes current, and the pending flag is cleared. *)
Theorem aiTimer_moves (s : state) (cur : entry) :
  current s = Some cur ->
  aiTurn s cur = true ->
  exists j sc,
    getBestAIMove (board cur) PLAYER_O PLAYER_X
    = Some {| idx := Idx j; score := sc |}
    /\ candidate (board cur) j
    /\ aiTimer s
       = Some {| mode := mode s;
                 history := take (S (stepNumber s)) (history s)
                   ++ [ {| board := place (board cur) j PLAYER_O;
                           xIsNext := true |} ];
                 stepNumber := S (stepNumber s);
                 aiThinking := false |}.
Proof. apply aiTimer_appends. Qed.

Lemma aiTimer_moves_witness :
  let cur := {| board := <[4%nat:=Mk PLAYER_X]> getEmptyBoard;
                xIsNext := false |} in
  let s := {| mode := MODE_SINGLE_PLAYER;
              history := [ {| board := getEmptyBoard; xIsNext := true |}; cur ];
              stepNumber := 1;
              aiThinking := true |} in
  exists j sc,
    getBestAIMove (board cur) PLAYER_O PLAYER_X
    = Some {| idx := Idx j; score := sc |}
    /\ candidate (board cur) j
    /\ aiTimer s
       = Some {| mode := mode s;
                 history := take 2 (history s)
                   ++ [ {| board := place (board cur) j PLAYER_O;
                           xIsNext := true |} ];
                 stepNumber := 2;
                 aiThinking := false |}.
Proof.
  intros cur s. apply (aiTimer_moves s cur); reflexivity.
Defined.

(** ** Histories of reachable sessions *)

Lemma aiTimer_cases s s' :
  aiTimer s = Some s' ->
  exists s1,
    (s1 = s \/ exists i, handleSquareClick s i true = Some s1)
    /\ s' = {| mode := mode s1; history := history s1;
               stepNumber := stepNumber s1; aiThinking := false |}.
Proof.
  unfold aiTimer. destruct (current s) as [cur|]; [|done].
  destruct (getBestAIMove _ _ _) as [best|]; [|done].
  destruct (idx best) as [| |i].
  - intros [= <-]. exists s. split; [by left|done].
  - intros [= <-]. exists s. split; [by left|done].
  - destruct (negb (truthy (get (board cur) i))).
    + destruct (handleSquareClick s i true) as [s1|] eqn:Hc; [|done].
      intros [= <-]. exists s1. split; [right; by exists i|done].
    + intros [= <-]. exists s. split; [by left|done].
Qed.

(** How one transition changes the history. *)
Lemma step_history s s' :
  step s s' ->
  history s' = history s
  \/ history s' = [initialEntry]
  \/ exists cur i,
       current s = Some cur
       /\ calculateWinner (board cur) = None
       /\ truthy (get (board cur) i) = false
       /\ history s'
          = take (S (stepNumber s)) (history s) ++ [next_entry cur i].
Proof.
  assert (Hclick : forall i isAI s1,
            handleSquareClick s i isAI = Some s1 ->
            history s1 = history s
            \/ exists cur i,
                 current s = Some cur
                 /\ calculateWinner (board cur) = None
                 /\ truthy (get (board cur) i) = false
                 /\ history s1
                    = take (S (stepNumber s)) (history s) ++ [next_entry cur i]).
  { intros i isAI s1 H.
    destruct (current s) as [cur|] eqn:Hcur;
      [|unfold handleSquareClick in H; by rewrite Hcur in H].
    destruct (handleSquareClick_cases s cur i isAI Hcur)
      as [[(Hw & Ho & _) H1]|[_ H1]];
      rewrite H1 in H; injection H as <-; [right|by left].
    by exists cur, i. }
  intros Hstep. destruct Hstep as
    [s i isAI s' Hc | s n Hn | s | s m | s s' Heff | s cur s' Hcur Hturn Htimer].
  - destruct (Hclick i isAI s' Hc) as [?|?]; auto.
  - by left.
  - right. by left.
  - right. by left.
  - left. unfold aiEffect in Heff. destruct (current s); [|done].
    destruct (aiTurn s _); by injection Heff as <-.
  - destruct (aiTimer_cases s s' Htimer) as (s1 & [->|[i Hi]] & ->);
      [by left|]. simpl. destruct (Hclick i true s1 Hi) as [?|?]; auto.
Qed.

(** Induction over the histories of reachable sessions. *)
Lemma reachable_history_ind (P : list entry -> Prop) :
  P [initialEntry] ->
  (forall h k cur i,
      P h -> h !! k = Some cur ->
      calculateWinner (board cur) = None ->
      truthy (get (board cur) i) = false ->
      P (take (S k) h ++ [next_entry cur i])) ->
  forall s, reachable s -> P (history s).
Proof.
  intros Hinit Hext s Hr. unfold reachable in Hr.
  apply (rtc_ind_r (R:=step) (fun s => P (history s)) initialState);
    [exact Hinit| |exact Hr].
  intros s1 s2 _ Hstep IH.
  destruct (step_history s1 s2 Hstep)
    as [->|[->|(cur & i & Hcur & Hw & Ho & ->)]]; [done|done|].
  by apply Hext.
Qed.

Lemma game_trace_extend h k cur i :
  game_trace h -> h !! k = Some cur ->
  calculateWinner (board cur) = None ->
  truthy (get (board cur) i) = false ->
  game_trace (take (S k) h ++ [next_entry cur i]).
Proof.
  intros [H0 Hnext] Hk Hw Ho.
  assert (Hlt : (k < length h)%nat) by by eapply lookup_lt_Some.
  assert (Hlen : length (take (S k) h) = S k) by (rewrite length_take; lia).
  assert (Hold : forall n, (n <= k)%nat ->
            (take (S k) h ++ [next_entry cur i]) !! n = h !! n).
  { intros n Hn. rewrite lookup_app_l by lia. apply lookup_take_lt. lia. }
  split; [rewrite Hold; [done|lia]|].
  intros n e e' Hn Hn'.
  assert (Hb : (S n < length (take (S k) h ++ [next_entry cur i]))%nat)
    by by eapply lookup_lt_Some.
  rewrite length_app, Hlen in Hb. simpl in Hb.
  rewrite Hold in Hn by lia.
  destruct (decide (n = k)) as [->|Hnk].
  - rewrite lookup_app_r, Hlen, Nat.sub_diag in Hn' by lia.
    injection Hn' as <-. rewrite Hk in Hn. injection Hn as <-.
    split; [done|]. by exists i.
  - rewrite Hold in Hn' by lia. by apply (Hnext n).
Qed.

Lemma reachable_game_trace (s : state) :
  reachable s -> game_trace (history s).
Proof.
  apply reachable_history_ind.
  - split; [done|]. intros [|n] e e' _ H; simpl in H; done.
  - intros h k cur i. apply game_trace_extend.
Qed.

(** In every reachable session the history records one game: its first
    entry is the empty board with X to move, and every later entry is the
    entry before it with the mover's mark written to one slot that held
    no mark, on a board whose game was not over. *)
Theorem reachable_history_is_game_trace (s : state) :
  reachable s -> game_trace (history s).
Proof. apply reachable_game_trace. Qed.

Lemma game_trace_parity h :
  game_trace h -> forall n e, h !! n = Some e -> xIsNext e = Nat.even n.
Proof.
  intros [H0 Hnext] n. induction n as [|n IH]; intros e Hn.
  - rewrite H0 in Hn. by injection Hn as <-.
  - assert (Hlt : (n < length h)%nat)
      by (apply lookup_lt_Some in Hn; lia).
    destruct (lookup_lt_is_Some_2 _ _ Hlt) as [e0 He0].
    destruct (Hnext n e0 e He0 Hn) as (_ & i & _ & ->).
    cbn [next_entry xIsNext].
    by rewrite (IH e0 He0), Nat.even_succ, <- Nat.negb_even.
Qed.

(** Turns alternate along the history of every reachable session: X is
    to move at the even steps and O at the odd ones. *)
Theorem reachable_turns_alternate (s : state) (n : nat) (e : entry) :
  reachable s ->
  history s !! n = Some e ->
  xIsNext e = Nat.even n.
Proof.
  intros Hr. apply game_trace_parity.
  by apply reachable_game_trace.
Qed.

Lemma reachable_winner_last (s : state) (n : nat) (e : entry)
    (r : winnerObj) :
  reachable s ->
  history s !! n = Some e ->
  calculateWinner (board e) = Some r ->
  length (history s) = S n
  /\ (winner r = WDraw
      \/ (winner r = WMark (if Nat.even n then PLAYER_O else PLAYER_X)
          /\ (0 < n)%nat)).
Proof.
  intros Hr Hn Hw.
  pose proof (reachable_game_trace s Hr) as Ht.
  pose proof (game_trace_parity _ Ht) as Hpar.
  destruct Ht as [H0 Hnext]. split.
  - apply lookup_lt_Some in Hn as Hlt.
    destruct (decide (S n < length (history s))%nat) as [Hlt'|]; [|lia].
    destruct (lookup_lt_is_Some_2 _ _ Hlt') as [e' He'].
    destruct (Hnext n e e' Hn He') as [Hnone _]. congruence.
  - destruct n as [|n].
    + rewrite H0 in Hn. injection Hn as <-. vm_compute in Hw. done.
    + assert (Hlt : (n < length (history s))%nat)
        by (apply lookup_lt_Some in Hn; lia).
      destruct (lookup_lt_is_Some_2 _ _ Hlt) as [e0 He0].
      destruct (Hnext n e0 e He0 Hn) as (Hnone & i & _ & ->).
      destruct (move_winner (board e0) i (mover e0) r Hnone Hw)
        as [?|[Hm _]]; [by left|right].
      split; [|lia]. rewrite Hm. unfold mover.
      rewrite (Hpar n e0 He0), Nat.even_succ, <- Nat.negb_even.
      by destruct (Nat.even n).
Qed.

(** In every reachable session only the last entry of the history can
    be a finished game, and a win found at an entry is a win of the
    player who moved into it: X at odd steps, O at even ones. *)
Theorem reachable_winner_moved_last (s : state) (n : nat) (e : entry)
    (r : winnerObj) :
  reachable s ->
  history s !! n = Some e ->
  calculateWinner (board e) = Some r ->
  length (history s) = S n
  /\ (winner r = WDraw
      \/ (winner r = WMark (if Nat.even n then PLAYER_O else PLAYER_X)
          /\ (0 < n)%nat)).
Proof. apply reachable_winner_last. Qed.

Lemma clicks_reachable cells : forall s s',
  reachable s -> clicks s cells = Some s' -> reachable s'.
Proof.
  induction cells as [|i rest IH]; intros s s' Hr Hc; simpl in Hc.
  - by injection Hc as <-.
  - destruct (handleSquareClick s i false) as [s1|] eqn:H1; [|done].
    apply (IH s1 s'); [|done].
    eapply rtc_r; [exact Hr|]. by eapply step_click.
Qed.

Lemma reachable_winner_moved_last_witness :
  let s := default initialState
             (clicks (switchMode initialState MODE_TWO_PLAYER)
                     [0; 3; 1; 4; 2]%nat) in
  reachable s
  /\ length (history s) = 6%nat
  /\ (WMark PLAYER_X = WDraw
      \/ (WMark PLAYER_X = WMark (if Nat.even 5 then PLAYER_O else PLAYER_X)
          /\ (0 < 5)%nat)).
Proof.
  intros s.
  assert (Hr : reachable s).
  { apply (clicks_reachable [0; 3; 1; 4; 2]%nat
             (switchMode initialState MODE_TWO_PLAYER) s);
      [|vm_compute; reflexivity].
    eapply rtc_l; [apply (step_switch _ MODE_TWO_PLAYER)|apply rtc_refl]. }
  split; [exact Hr|].
  apply (reachable_winner_moved_last s 5
           {| board := [Mk PLAYER_X; Mk PLAYER_X; Mk PLAYER_X;
                        Mk PLAYER_O; Mk PLAYER_O; Null; Null; Null; Null];
              xIsNext := false |}
           {| winner := WMark PLAYER_X; line := Some (0, 1, 2)%nat |} Hr).
  - reflexivity.
  - reflexivity.
Defined.

(** ** Sessions the page can produce *)

Lemma boardSquares_range i : i ∈ boardSquares <-> (i < 9)%nat.
Proof.
  unfold boardSquares. simpl. rewrite !elem_of_cons, elem_of_nil. lia.
Qed.

Lemma ui_step_step s s' : ui_step s s' -> step s s'.
Proof.
  intros [s1 i s2 _ H | s1 n H | s1 | s1 m | s1 s2 H | s1 cur s2 H1 H2 H3].
  - by eapply step_click.
  - by apply step_jump.
  - apply step_restart.
  - apply step_switch.
  - by apply step_effect.
  - by eapply step_timer.
Qed.

Lemma ui_reachable_reachable s : ui_reachable s -> reachable s.
Proof.
  unfold ui_reachable, reachable. intros Hr.
  apply (rtc_ind_r (R:=ui_step) (fun s => rtc step initialState s) initialState);
    [apply rtc_refl| |exact Hr].
  intros s1 s2 _ Hstep IH. eapply rtc_r; [exact IH|by apply ui_step_step].
Qed.

(** How one transition of the page changes history and mode, and who
    moved: a person, on one of the nine squares (in single player mode on
    X's turn), or the AI, on the square its search returned. *)
Lemma ui_step_cases s s' :
  ui_step s s' ->
  (history s' = history s /\ mode s' = mode s)
  \/ history s' = [initialEntry]
  \/ exists cur i,
       current s = Some cur
       /\ calculateWinner (board cur) = None
       /\ truthy (get (board cur) i) = false
       /\ history s'
          = take (S (stepNumber s)) (history s) ++ [next_entry cur i]
       /\ mode s' = mode s
       /\ (((i < 9)%nat
            /\ (mode s = MODE_SINGLE_PLAYER -> xIsNext cur = true))
           \/ (xIsNext cur = false
               /\ candidate (board cur) i
               /\ exists sc,
                    getBestAIMove (board cur) PLAYER_O PLAYER_X
                    = Some {| idx := Idx i; score := sc |})).
Proof.
  intros [s1 i s2 Hi H | s1 n H | s1 | s1 m | s1 s2 H | s1 cur s2 Hcur Hturn H].
  - destruct (current s1) as [cur|] eqn:Hcur;
      [|unfold handleSquareClick in H; by rewrite Hcur in H].
    destruct (handleSquareClick_cases s1 cur i false Hcur)
      as [[(Hw & Ho & Hg) H1]|[_ H1]];
      rewrite H1 in H; injection H as <-; [right; right|by left].
    exists cur, i. repeat (split; [done|]). left.
    split; [by apply boardSquares_range|].
    intros Hm. destruct Hg as [?|[?|[? _]]]; congruence.
  - by left.
  - right. by left.
  - right. by left.
  - left. unfold aiEffect in H. destruct (current s1); [|done].
    destruct (aiTurn s1 _); by injection H as <-.
  - right. right.
    destruct (aiTimer_appends s1 cur Hcur Hturn) as (j & sc & Hbest & Hj & Ht).
    rewrite Ht in H. injection H as <-.
    destruct (aiTurn_inv s1 cur Hturn) as (Hm & Hw & Hx).
    exists cur, j. split; [done|]. split; [done|].
    split; [by apply candidate_in_range|].
    split; [simpl; unfold next_entry, mover, place; by rewrite Hx|].
    split; [done|]. right. split; [done|]. split; [done|]. by exists sc.
Qed.

Lemma lookup_extended (h : list entry) k e' n e :
  (k < length h)%nat ->
  (take (S k) h ++ [e']) !! n = Some e ->
  ((n <= k)%nat /\ h !! n = Some e) \/ (n = S k /\ e = e').
Proof.
  intros Hk Hn.
  assert (Hlen : length (take (S k) h) = S k) by (rewrite length_take; lia).
  destruct (decide (n <= k)%nat) as [Hle|Hgt].
  - left. split; [done|].
    rewrite lookup_app_l in Hn by lia. by rewrite lookup_take_lt in Hn by lia.
  - right. rewrite lookup_app_r in Hn by lia. rewrite Hlen in Hn.
    destruct (n - S k)%nat as [|d] eqn:Hd; simpl in Hn; [|done].
    injection Hn as <-. split; [lia|done].
Qed.

Lemma legal_free_cell (bd : Board) i :
  legal_board bd -> (i < 9)%nat -> truthy (get bd i) = false ->
  empty_cell bd i.
Proof.
  intros [Hlen Hall] Hi Ho. unfold empty_cell.
  destruct (lookup_lt_is_Some_2 bd i) as [c Hc]; [lia|].
  rewrite Forall_forall in Hall.
  destruct (Hall c (list_elem_of_lookup_2 _ _ _ Hc)) as [->|[m ->]]; [done|].
  unfold get in Ho. by rewrite Hc in Ho.
Qed.

Lemma boards_legal_initial : boards_legal [initialEntry].
Proof.
  intros [|n] e H; simpl in H; [|done]. injection H as <-.
  split; [|reflexivity]. split; [reflexivity|].
  repeat (apply Forall_cons_2; [by left|]). apply Forall_nil_2.
Qed.

Lemma boards_legal_extend h k cur i :
  boards_legal h -> h !! k = Some cur ->
  (i < 9)%nat -> truthy (get (board cur) i) = false ->
  boards_legal (take (S k) h ++ [next_entry cur i]).
Proof.
  intros Hh Hk Hi Ho n e Hn.
  destruct (lookup_extended h k _ n e (lookup_lt_Some _ _ _ Hk) Hn)
    as [[_ Hold]|[-> ->]]; [by apply Hh|].
  destruct (Hh k cur Hk) as [Hl Hu].
  pose proof (legal_free_cell _ i Hl Hi Ho) as He.
  simpl. fold (place (board cur) i (mover cur)).
  pose proof (place_unmarked (board cur) i (mover cur)
                (proj2 (legal_candidate _ Hl i) He)) as Hp.
  rewrite (legal_place _ Hl i _ He) in *.
  split; [by apply legal_play|lia].
Qed.

Lemma ui_reachable_boards_legal s : ui_reachable s -> boards_legal (history s).
Proof.
  intros Hr. unfold ui_reachable in Hr.
  apply (rtc_ind_r (R:=ui_step) (fun s => boards_legal (history s)) initialState);
    [apply boards_legal_initial| |exact Hr].
  intros s1 s2 _ Hstep IH.
  destruct (ui_step_cases s1 s2 Hstep)
    as [[-> _]|[->|(cur & i & Hcur & Hw & Ho & -> & _ & Hwho)]];
    [done|apply boards_legal_initial|].
  apply boards_legal_extend; try done.
  destruct Hwho as [[Hi _]|(_ & Hj & _)]; [done|].
  destruct (candidate_in_range _ i Hj) as [Hlt _].
  destruct (IH _ _ Hcur) as [[Hlen _] _]. lia.
Qed.

(** In every session the page can produce, the board at step [n] of the
    history has nine cells, each [null] or a mark, of which exactly [n]
    hold a mark; so the history never has more than ten entries. *)
Theorem ui_history_boards (s : state) :
  ui_reachable s ->
  (length (history s) <= 10)%nat
  /\ forall n e, history s !! n = Some e ->
       legal_board (board e) /\ (unmarked (board e) + n = 9)%nat.
Proof.
  intros Hr. pose proof (ui_reachable_boards_legal s Hr) as Hb.
  split; [|exact Hb].
  destruct (decide (length (history s) <= 10)%nat) as [|Hgt]; [done|].
  destruct (lookup_lt_is_Some_2 (history s) 10) as [e He]; [lia|].
  destruct (Hb 10%nat e He) as [_ Hu]. lia.
Qed.

(** ** The AI does not lose *)

Lemma empty_board_score : search_score getEmptyBoard PLAYER_X PLAYER_O = 0.
Proof. vm_compute. reflexivity. Qed.

Lemma ai_holds_empty : forces_draw PLAYER_O PLAYER_X getEmptyBoard.
Proof.
  destruct boards_legal_initial with (n := 0%nat) (e := initialEntry)
    as [Hl _]; [done|].
  destruct (search_value (unmarked getEmptyBoard) getEmptyBoard PLAYER_X
              Hl (le_n _)) as (_ & _ & _ & H).
  apply H. change (opponent PLAYER_X) with PLAYER_O.
  rewrite empty_board_score. lia.
Qed.

Lemma ai_holds_after_human (bd : Board) i :
  legal_board bd -> calculateWinner bd = None -> empty_cell bd i ->
  forces_draw PLAYER_O PLAYER_X bd ->
  forces_draw PLAYER_O PLAYER_O (play bd i PLAYER_X).
Proof.
  intros Hl Hw Hi Hf. unfold forces_draw in *.
  assert (Hne : PLAYER_X <> PLAYER_O) by done.
  exact (proj1 (forces_on_reply _ PLAYER_O PLAYER_X bd Hw Hne
                  (ex_intro _ i Hi)) Hf i Hi).
Qed.

Lemma ai_holds_after_ai (bd : Board) i sc :
  legal_board bd -> calculateWinner bd = None ->
  getBestAIMove bd PLAYER_O PLAYER_X = Some {| idx := Idx i; score := sc |} ->
  forces_draw PLAYER_O PLAYER_O bd ->
  empty_cell bd i /\ forces_draw PLAYER_O PLAYER_X (play bd i PLAYER_O).
Proof.
  intros Hl Hw Hbest Hf.
  destruct (search_value (unmarked bd) bd PLAYER_O Hl (le_n _))
    as (_ & Hdraw & _ & _).
  change (opponent PLAYER_O) with PLAYER_X in Hdraw.
  apply Hdraw in Hf.
  destruct (search_move_spec bd PLAYER_O PLAYER_X)
    as (j & Hb & Hs & Hj & _);
    [by rewrite Hw|destruct (legal_ongoing_has_empty bd Hl Hw) as [k Hk];
                    exists k; by apply legal_candidate|].
  rewrite getBestAIMove_unfold, Hb in Hbest.
  assert (j = i) as -> by congruence.
  apply (legal_candidate bd Hl) in Hj. split; [done|].
  rewrite (legal_place bd Hl i _ Hj) in Hs.
  assert (Hu : (unmarked (play bd i PLAYER_O) <= unmarked bd)%nat).
  { rewrite <- (legal_place bd Hl i _ Hj).
    pose proof (place_unmarked bd i PLAYER_O
                  (proj2 (legal_candidate bd Hl i) Hj)). lia. }
  destruct (search_value (unmarked bd) (play bd i PLAYER_O) PLAYER_X
              (legal_play bd Hl i PLAYER_O) Hu) as (_ & _ & _ & Hopp).
  change (opponent PLAYER_X) with PLAYER_O in Hopp.
  apply Hopp. lia.
Qed.

Lemma ui_reachable_ai_holds s : ui_reachable s -> ai_holds s.
Proof.
  intros Hr. unfold ui_reachable in Hr.
  apply (rtc_ind_r (R:=ui_step) ai_holds initialState); [| |exact Hr].
  - intros _ [|n] e H; simpl in H; [|done]. injection H as <-.
    apply ai_holds_empty.
  - intros s1 s2 Hr1 Hstep IH Hm2.
    pose proof (ui_reachable_boards_legal s1 Hr1) as Hlegal.
    destruct (ui_step_cases s1 s2 Hstep)
      as [[Hh Hm]|[Hh|(cur & i & Hcur & Hw & Ho & Hh & Hm & Hwho)]];
      rewrite Hh.
    + apply IH. congruence.
    + intros [|n] e H; simpl in H; [|done]. injection H as <-.
      apply ai_holds_empty.
    + rewrite Hm in Hm2. specialize (IH Hm2).
      intros n e Hn.
      destruct (lookup_extended _ _ _ n e (lookup_lt_Some _ _ _ Hcur) Hn)
        as [[_ Hold]|[-> ->]]; [by apply (IH n)|].
      destruct (Hlegal _ _ Hcur) as [Hl _].
      specialize (IH _ _ Hcur). unfold mover in IH |- *.
      cbn [next_entry board xIsNext]. unfold mover.
      fold (place (board cur) i (if xIsNext cur then PLAYER_X else PLAYER_O)).
      destruct Hwho as [[Hi Hx]|(Hx & Hj & sc & Hbest)].
      * rewrite (Hx Hm2) in *. simpl.
        pose proof (legal_free_cell _ i Hl Hi Ho) as He.
        rewrite (legal_place _ Hl i _ He).
        by apply ai_holds_after_human.
      * rewrite Hx in *. simpl.
        destruct (ai_holds_after_ai _ i sc Hl Hw Hbest IH) as [He Hf].
        by rewrite (legal_place _ Hl i _ He).
Qed.

(** In single player mode a person playing X through the page never
    wins: at every step of the history of every session the page can
    produce, a finished game is a draw or a win for O. *)
Theorem ai_never_loses (s : state) (n : nat) (e : entry) (r : winnerObj) :
  ui_reachable s ->
  mode s = MODE_SINGLE_PLAYER ->
  history s !! n = Some e ->
  calculateWinner (board e) = Some r ->
  winner r = WMark PLAYER_O \/ winner r = WDraw.
Proof.
  intros Hr Hm Hn Hw.
  pose proof (ui_reachable_ai_holds s Hr Hm n e Hn) as Hf.
  unfold forces_draw in Hf.
  exact (proj1 (forces_over _ PLAYER_O (mover e) (board e) r Hw) Hf).
Qed.

Lemma playRound_reachable s i s' :
  ui_reachable s -> playRound s i = Some s' -> ui_reachable s'.
Proof.
  unfold playRound. intros Hr H. case_bool_decide as Hi; [|done].
  destruct (handleSquareClick s i false) as [s1|] eqn:H1; [|done].
  destruct (current s1) as [cur|] eqn:Hcur; [|done].
  destruct (aiTurn s1 cur) eqn:Hturn; [|done].
  eapply rtc_r; [|by eapply ui_timer].
  eapply rtc_r; [exact Hr|]. by eapply ui_click.
Qed.

Lemma playRounds_reachable cells : forall s s',
  ui_reachable s -> playRounds s cells = Some s' -> ui_reachable s'.
Proof.
  induction cells as [|i rest IH]; intros s s' Hr H; simpl in H.
  - by injection H as <-.
  - destruct (playRound s i) as [s1|] eqn:H1; [|done].
    apply (IH s1 s'); [|done]. by eapply playRound_reachable.
Qed.

Lemma ai_never_loses_witness :
  let s := default initialState (playRounds initialState [0; 1; 3]%nat) in
  ui_reachable s
  /\ length (history s) = 7%nat
  /\ (WMark PLAYER_O = WMark PLAYER_O \/ WMark PLAYER_O = WDraw).
Proof.
  intros s.
  assert (Hr : ui_reachable s).
  { apply (playRounds_reachable [0; 1; 3]%nat initialState s);
      [apply rtc_refl|vm_compute; reflexivity]. }
  split; [exact Hr|]. split; [vm_compute; reflexivity|].
  apply (ai_never_loses s 6
           {| board := [Mk PLAYER_X; Mk PLAYER_X; Mk PLAYER_O;
                        Mk PLAYER_X; Mk PLAYER_O; Null;
                        Mk PLAYER_O; Null; Null];
              xIsNext := true |}
           {| winner := WMark PLAYER_O; line := Some (2, 4, 6)%nat |} Hr).
  - vm_compute. reflexivity.
  - vm_compute. reflexivity.
  - vm_compute. reflexivity.
Defined.

(** ** What the page shows *)

Lemma lines_highlight l :
  l ∈ lines ->
  let '(a, b, c) := l in
  filter (fun i => line_includes l i = true) boardSquares = [a; b; c].
Proof.
  unfold lines. rewrite !elem_of_cons, elem_of_nil.
  intros [->|[->|[->|[->|[->|[->|[->|[->|[]]]]]]]]]; reflexivity.
Qed.

(** The squares the page highlights are those of the reported line:
    after a win exactly its three cells, each holding the winner's mark;
    after a draw and during play none. *)
Theorem highlighted_squares (e : entry) :
  match calculateWinner (board e) with
  | Some {| winner := WMark m; line := l |} =>
      exists a b c,
        l = Some (a, b, c)
        /\ highlighted e = [a; b; c]
        /\ get (board e) a = Mk m
        /\ get (board e) b = Mk m
        /\ get (board e) c = Mk m
  | _ => highlighted e = []
  end.
Proof.
  unfold highlighted, winningLine_of.
  pose proof (calculateWinner_cases (board e)) as Hc.
  destruct (calculateWinner (board e)) as [[w l]|]; [|reflexivity].
  destruct Hc as [(m & pre & [[a b] c] & post & [= -> ->] & Hl & Hh & _)
                 |([= -> ->] & _)]; [|reflexivity].
  exists a, b, c. split; [done|]. destruct Hh as (Ha & Hb & Hc).
  split; [|done].
  assert (Hin : (a, b, c) ∈ lines)
    by (rewrite Hl; apply elem_of_app; right; left).
  exact (lines_highlight (a, b, c) Hin).
Qed.

Lemma historyButtons_lookup s n :
  historyButtons s !! n
  = (fun _ => {| target := n;
                 selected := bool_decide (n = stepNumber s);
                 label := if bool_decide (n = 0%nat) then LabelStart
                          else LabelMove n |}) <$> history s !! n.
Proof. unfold historyButtons. by rewrite list_lookup_imap. Qed.

(** In every reachable session the history panel shows one button per
    entry; the [n]-th jumps to step [n], which is a step of the history;
    only the first is labelled Start; and exactly one button is selected,
    the one of the current step. *)
Theorem historyButtons_spec (s : state) :
  reachable s ->
  length (historyButtons s) = length (history s)
  /\ (forall n b, historyButtons s !! n = Some b ->
        target b = n
        /\ (target b < length (history s))%nat
        /\ (label b = LabelStart <-> n = 0%nat)
        /\ (selected b = true <-> n = stepNumber s))
  /\ exists b, historyButtons s !! stepNumber s = Some b /\ selected b = true.
Proof.
  intros Hr. destruct (reachable_inv s Hr) as [Hk _].
  split; [unfold historyButtons; by rewrite length_imap|]. split.
  - intros n b Hb. rewrite historyButtons_lookup in Hb.
    destruct (history s !! n) as [e|] eqn:He; [|done].
    injection Hb as <-. cbn [target selected label].
    split; [done|]. split; [by eapply lookup_lt_Some|]. split.
    + case_bool_decide; [done|]. split; [done|]. intros ->. done.
    + apply bool_decide_eq_true.
  - destruct (lookup_lt_is_Some_2 _ _ Hk) as [e He].
    eexists. rewrite historyButtons_lookup, He.
    split; [done|]. cbn [selected]. by apply bool_decide_eq_true.
Qed.

(** The status line of a reachable session: it names X as next to move
    at the even steps and O at the odd ones; a winner it announces is the
    player who moved last, X at an odd step and O at an even one; and
    whatever it announces other than a next player ends the history. *)
Theorem statusOf_spec (s : state) (cur : entry) :
  reachable s ->
  current s = Some cur ->
  match statusOf s cur with
  | StatusNext m thinking =>
      m = (if Nat.even (stepNumber s) then PLAYER_X else PLAYER_O)
      /\ thinking = aiThinking s
  | StatusWinner m =>
      m = (if Nat.even (stepNumber s) then PLAYER_O else PLAYER_X)
      /\ length (history s) = S (stepNumber s)
  | StatusDraw => length (history s) = S (stepNumber s)
  end.
Proof.
  intros Hr Hcur. unfold statusOf, winner_of.
  pose proof (game_trace_parity _ (reachable_game_trace s Hr) _ _ Hcur) as Hp.
  destruct (calculateWinner (board cur)) as [r|] eqn:Hw.
  - destruct (reachable_winner_last s _ cur r Hr Hcur Hw) as [Hlen Hwin].
    destruct (winner r) as [m|]; [|done].
    split; [|done]. destruct Hwin as [?|[[= ->] _]]; done.
  - by rewrite Hp.
Qed.

(** Starting from the initial theme ['light'], the theme after [n]
    toggles is ['light'] when [n] is even and ['dark'] when it is odd; in
    particular two toggles restore it. *)
Theorem toggleTheme_iter (n : nat) :
  Nat.iter n toggleTheme "light"%string
  = if Nat.even n then "light"%string else "dark"%string.
Proof.
  induction n as [|n IH]; [done|].
  rewrite Nat.iter_succ, IH, Nat.even_succ, <- Nat.negb_even.
  by destruct (Nat.even n).
Qed.

(** The pending flag can outlive the pending move.  A person plays,
    the effect sets the flag, and a jump back to the start cancels the
    timer, which alone would clear it: the page then shows X to move on
    an unfinished game, yet the effect does nothing and every click of a
    person is refused. *)
Theorem pending_flag_can_stick :
  exists s cur,
    ui_reachable s
    /\ current s = Some cur
    /\ calculateWinner (board cur) = None
    /\ xIsNext cur = true
    /\ aiThinking s = true
    /\ aiTurn s cur = false
    /\ aiEffect s = Some s
    /\ forall i, handleSquareClick s i false = Some s.
Proof.
  set (e1 := next_entry initialEntry 0).
  set (s1 := {| mode := MODE_SINGLE_PLAYER; history := [initialEntry; e1];
                stepNumber := 1; aiThinking := false |}).
  set (s2 := {| mode := MODE_SINGLE_PLAYER; history := [initialEntry; e1];
                stepNumber := 1; aiThinking := true |}).
  exists (jumpTo s2 0), initialEntry.
  split.
  { unfold ui_reachable.
    eapply rtc_l; [apply (ui_click initialState 0 s1);
                   [apply boardSquares_range; lia|reflexivity]|].
    eapply rtc_l; [apply (ui_effect s1 s2); reflexivity|].
    eapply rtc_l; [apply (ui_jump s2 0); simpl; lia|].
    apply rtc_refl. }
  repeat (split; [reflexivity|]).
  intros i.
  destruct (handleSquareClick_cases (jumpTo s2 0) initialEntry i false eq_refl)
    as [[(_ & _ & Hg) _]|[_ H]]; [|done].
  destruct Hg as [?|[?|[_ ?]]]; done.
Qed.

Lemma unmarked_all_marked (bd : Board) :
  (forall c, c ∈ bd -> exists m, c = Mk m) -> unmarked bd = 0%nat.
Proof.
  unfold unmarked. induction bd as [|c bd IH]; intros H; [done|].
  rewrite filter_cons. destruct (H c) as [m ->]; [left|].
  rewrite decide_False by done. apply IH. intros d Hd. apply H. by right.
Qed.

(** In the sessions the page can produce a draw is reported only at
    step 9, with all nine cells marked, and at step 9 the game is always
    over. *)
Theorem ui_draw_only_when_full (s : state) (n : nat) (e : entry) :
  ui_reachable s ->
  history s !! n = Some e ->
  (calculateWinner (board e) = Some {| winner := WDraw; line := None |} ->
   n = 9%nat)
  /\ (n = 9%nat -> calculateWinner (board e) <> None).
Proof.
  intros Hr Hn. destruct (ui_reachable_boards_legal s Hr n e Hn) as [Hl Hu].
  pose proof (calculateWinner_cases (board e)) as Hc. split.
  - intros Hw. rewrite Hw in Hc.
    destruct Hc as [(m & ? & ? & ? & [=] & _)|(_ & _ & Hfull)].
    assert (H0 : unmarked (board e) = 0%nat); [|lia].
    apply unmarked_all_marked. intros c Hin.
    destruct (Hfull c Hin) as [->|?]; [|done].
    destruct Hl as [_ Hall]. rewrite Forall_forall in Hall.
    by destruct (Hall Hole Hin) as [?|[? ?]].
  - intros -> Hw. rewrite Hw in Hc. destruct Hc as [_ [j Hj]].
    pose proof (place_unmarked (board e) j PLAYER_X Hj). lia.
Qed.

(** On reachable sessions the AI-pending flag is set only in single
    player mode. *)
Theorem pending_only_in_single_player (s : state) :
  reachable s -> aiThinking s = true -> mode s = MODE_SINGLE_PLAYER.
Proof. intros Hr. by destruct (reachable_inv s Hr). Qed.

Lemma pending_only_in_single_player_witness :
  let s := {| mode := MODE_SINGLE_PLAYER;
              history := [initialEntry; next_entry initialEntry 0];
              stepNumber := 1; aiThinking := true |} in
  reachable s /\ mode s = MODE_SINGLE_PLAYER.
Proof.
  intros s.
  assert (Hr : reachable s).
  { unfold reachable.
    eapply rtc_l; [apply (step_click initialState 0 false); reflexivity|].
    eapply rtc_l; [apply step_effect; reflexivity|].
    apply rtc_refl. }
  split; [exact Hr|].
  exact (pending_only_in_single_player s Hr eq_refl).
Defined.

(** ** Sessions used as witnesses *)

Lemma clicks_ui_reachable cells : forall s s',
  ui_reachable s -> Forall (fun i => (i < 9)%nat) cells ->
  clicks s cells = Some s' -> ui_reachable s'.
Proof.
  induction cells as [|i rest IH]; intros s s' Hr Hall Hc; simpl in Hc.
  - by injection Hc as <-.
  - apply Forall_cons in Hall as [Hi Hall].
    destruct (handleSquareClick s i false) as [s1|] eqn:H1; [|done].
    apply (IH s1 s'); [|done|done].
    eapply rtc_r; [exact Hr|].
    eapply ui_click; [by apply boardSquares_range|done].
Qed.

Lemma x_wins_reachable :
  reachable (default initialState
               (clicks (switchMode initialState MODE_TWO_PLAYER)
                       [0; 3; 1; 4; 2]%nat)).
Proof.
  apply (clicks_reachable [0; 3; 1; 4; 2]%nat
           (switchMode initialState MODE_TWO_PLAYER));
    [|vm_compute; reflexivity].
  eapply rtc_l; [apply (step_switch _ MODE_TWO_PLAYER)|apply rtc_refl].
Qed.

Lemma drawn_ui_reachable :
  ui_reachable (default initialState
                  (clicks (switchMode initialState MODE_TWO_PLAYER)
                          [0; 1; 2; 4; 3; 5; 7; 6; 8]%nat)).
Proof.
  apply (clicks_ui_reachable [0; 1; 2; 4; 3; 5; 7; 6; 8]%nat
           (switchMode initialState MODE_TWO_PLAYER));
    [| |vm_compute; reflexivity].
  - eapply rtc_l; [apply (ui_switch _ MODE_TWO_PLAYER)|apply rtc_refl].
  - repeat (apply Forall_cons_2; [lia|]). apply Forall_nil_2.
Qed.

Lemma reachable_history_is_game_trace_witness :
  let s := default initialState
             (clicks (switchMode initialState MODE_TWO_PLAYER)
                     [0; 3; 1; 4; 2]%nat) in
  reachable s
  /\ length (history s) = 6%nat
  /\ game_trace (history s).
Proof.
  intros s. split; [exact x_wins_reachable|]. split; [reflexivity|].
  exact (reachable_history_is_game_trace s x_wins_reachable).
Defined.

Lemma reachable_turns_alternate_witness :
  let s := default initialState
             (clicks (switchMode initialState MODE_TWO_PLAYER)
                     [0; 3; 1; 4; 2]%nat) in
  let e3 := {| board := [Mk PLAYER_X; Mk PLAYER_X; Null;
                         Mk PLAYER_O; Null; Null; Null; Null; Null];
               xIsNext := false |} in
  history s !! 3%nat = Some e3
  /\ xIsNext e3 = Nat.even 3.
Proof.
  intros s e3. split; [reflexivity|].
  apply (reachable_turns_alternate s 3 e3).
  - exact x_wins_reachable.
  - reflexivity.
Defined.

Lemma ui_history_boards_witness :
  let s := default initialState
             (clicks (switchMode initialState MODE_TWO_PLAYER)
                     [0; 1; 2; 4; 3; 5; 7; 6; 8]%nat) in
  ui_reachable s
  /\ length (history s) = 10%nat
  /\ (length (history s) <= 10)%nat
  /\ forall n e, history s !! n = Some e ->
       legal_board (board e) /\ (unmarked (board e) + n = 9)%nat.
Proof.
  intros s. split; [exact drawn_ui_reachable|]. split; [reflexivity|].
  exact (ui_history_boards s drawn_ui_reachable).
Defined.

Lemma ui_draw_only_when_full_witness :
  let s := default initialState
             (clicks (switchMode initialState MODE_TWO_PLAYER)
                     [0; 1; 2; 4; 3; 5; 7; 6; 8]%nat) in
  let e := {| board := [Mk PLAYER_X; Mk PLAYER_O; Mk PLAYER_X;
                        Mk PLAYER_X; Mk PLAYER_O; Mk PLAYER_O;
                        Mk PLAYER_O; Mk PLAYER_X; Mk PLAYER_X];
              xIsNext := false |} in
  history s !! 9%nat = Some e
  /\ calculateWinner (board e) = Some {| winner := WDraw; line := None |}
  /\ (calculateWinner (board e)
      = Some {| winner := WDraw; line := None |} -> 9%nat = 9%nat)
  /\ (9%nat = 9%nat -> calculateWinner (board e) <> None).
Proof.
  intros s e. split; [reflexivity|]. split; [reflexivity|].
  exact (ui_draw_only_when_full s 9 e drawn_ui_reachable eq_refl).
Defined.

Lemma historyButtons_spec_witness :
  let s := jumpTo (default initialState
                     (clicks (switchMode initialState MODE_TWO_PLAYER)
                             [0; 3; 1; 4; 2]%nat)) 2 in
  reachable s
  /\ stepNumber s = 2%nat
  /\ length (historyButtons s) = 6%nat
  /\ length (historyButtons s) = length (history s)
  /\ (forall n b, historyButtons s !! n = Some b ->
        target b = n
        /\ (target b < length (history s))%nat
        /\ (label b = LabelStart <-> n = 0%nat)
        /\ (selected b = true <-> n = stepNumber s))
  /\ exists b, historyButtons s !! stepNumber s = Some b /\ selected b = true.
Proof.
  intros s.
  assert (Hr : reachable s).
  { eapply rtc_r; [exact x_wins_reachable|].
    apply step_jump. vm_compute. lia. }
  split; [exact Hr|]. split; [reflexivity|]. split; [reflexivity|].
  exact (historyButtons_spec s Hr).
Defined.

Lemma statusOf_spec_witness :
  let s := default initialState
             (clicks (switchMode initialState MODE_TWO_PLAYER)
                     [0; 3; 1; 4; 2]%nat) in
  let e5 := {| board := [Mk PLAYER_X; Mk PLAYER_X; Mk PLAYER_X;
                         Mk PLAYER_O; Mk PLAYER_O; Null; Null; Null; Null];
               xIsNext := false |} in
  let e1 := {| board := <[0%nat:=Mk PLAYER_X]> getEmptyBoard;
               xIsNext := false |} in
  (statusOf s e5 = StatusWinner PLAYER_X
   /\ PLAYER_X = (if Nat.even 5 then PLAYER_O else PLAYER_X)
   /\ length (history s) = 6%nat)
  /\ (statusOf (jumpTo s 1) e1 = StatusNext PLAYER_O false
      /\ PLAYER_O = (if Nat.even 1 then PLAYER_X else PLAYER_O)
      /\ false = aiThinking (jumpTo s 1)).
Proof.
  intros s e5 e1.
  assert (Hr1 : reachable (jumpTo s 1)).
  { eapply rtc_r; [exact x_wins_reachable|].
    apply step_jump. vm_compute. lia. }
  split.
  - split; [reflexivity|].
    exact (statusOf_spec s e5 x_wins_reachable eq_refl).
  - split; [reflexivity|].
    exact (statusOf_spec (jumpTo s 1) e1 Hr1 eq_refl).
Defined.

